(** * easy-scraping: the crawl engine of [customscraper.py]

    A shallow embedding of [MyScraper] (a thread-pool web crawler bounded by
    a recursion depth) as an interleaving state machine, and the properties
    of its scheduling, deduplication store, cancellation flag and output. *)

From Stdlib Require Import ZArith Lia Ascii String.
From stdpp Require Import base list strings pretty.

Local Open Scope Z_scope.
Local Open Scope string_scope.
Local Open Scope list_scope.

(** ** Strings the way the script uses them *)

Module Url.

Definition is_upper (c : ascii) : bool :=
  ((65 <=? N_of_ascii c) && (N_of_ascii c <=? 90))%N.

Definition is_lower (c : ascii) : bool :=
  ((97 <=? N_of_ascii c) && (N_of_ascii c <=? 122))%N.

Definition is_digit (c : ascii) : bool :=
  ((48 <=? N_of_ascii c) && (N_of_ascii c <=? 57))%N.

Definition is_alpha (c : ascii) : bool := is_upper c || is_lower c.

(** [scheme_chars] of [urllib.parse]: letters, digits and "+-." *)
Definition is_scheme_char (c : ascii) : bool :=
  is_alpha c || is_digit c
  || Ascii.eqb c "+" || Ascii.eqb c "-" || Ascii.eqb c ".".

Definition lower_char (c : ascii) : ascii :=
  if is_upper c then ascii_of_N (N_of_ascii c + 32) else c.

Fixpoint lower (s : string) : string :=
  match s with
  | EmptyString => EmptyString
  | String c s' => String (lower_char c) (lower s')
  end.

Fixpoint all_chars (p : ascii -> bool) (s : string) : bool :=
  match s with
  | EmptyString => true
  | String c s' => p c && all_chars p s'
  end.

(** [s.find(c)]: index of the first occurrence. *)
Fixpoint find (c : ascii) (s : string) : option nat :=
  match s with
  | EmptyString => None
  | String c' s' =>
    if Ascii.eqb c c' then Some O else option_map S (find c s')
  end.

Fixpoint take (n : nat) (s : string) : string :=
  match n, s with
  | S n', String c s' => String c (take n' s')
  | _, _ => EmptyString
  end.

Fixpoint drop (n : nat) (s : string) : string :=
  match n, s with
  | S n', String _ s' => drop n' s'
  | _, _ => s
  end.

(** [s.startswith(p)] *)
Definition startswith (p s : string) : bool := String.prefix p s.

Definition is_netloc_delim (c : ascii) : bool :=
  Ascii.eqb c "/" || Ascii.eqb c "?" || Ascii.eqb c "#".

(** [_splitnetloc]: the part before the first of "/?#". *)
Fixpoint netloc_of (s : string) : string :=
  match s with
  | EmptyString => EmptyString
  | String c s' =>
    if is_netloc_delim c then EmptyString else String c (netloc_of s')
  end.

Record ParseResult := { scheme : string; netloc : string }.

(** The two fields of [urllib.parse.urlparse(url)] the crawler reads, on
    the URLs for which the library returns: the scheme is the lower-cased
    text before the first colon when that text is a letter followed by
    scheme characters; the network location is what follows a leading "//"
    up to the first of "/?#". *)
Definition urlparse (url : string) : ParseResult :=
  let split :=
    match find ":" url with
    | Some (S i) =>
        let head := take (S i) url in
        if match url with
           | String c _ => is_alpha c
           | EmptyString => false
           end && all_chars is_scheme_char head
        then (lower head, drop (S (S i)) url)
        else (EmptyString, url)
    | _ => (EmptyString, url)
    end in
  {| scheme := fst split;
     netloc := if startswith "//" (snd split)
               then netloc_of (drop 2 (snd split)) else EmptyString |}.

(** Lines 113-118: the URL the child task is submitted with. *)
Definition next_url (url href : string) : string :=
  if startswith "/" href
  then scheme (urlparse url) +:+ "://" +:+ netloc (urlparse url)
       +:+ "/" +:+ href
  else href.

End Url.

(** ** The store: a Python [dict] keyed by URL

    A [dict] keeps its keys in insertion order (the order [json.dumps]
    writes them in); assigning to a key that is present replaces the value
    in place, assigning to a new key appends.  [LockingDict] (lines 22-31)
    takes its lock around the assignment: [setitem] is one move of the
    machine below. *)

Module PyDict.
Section Dict.
Context {V : Type}.

Definition dict := list (string * V).

Fixpoint contains (k : string) (d : dict) : bool :=
  match d with
  | [] => false
  | (k', _) :: d' => if String.eqb k k' then true else contains k d'
  end.

Fixpoint get (k : string) (d : dict) : option V :=
  match d with
  | [] => None
  | (k', v) :: d' => if String.eqb k k' then Some v else get k d'
  end.

Fixpoint setitem (k : string) (v : V) (d : dict) : dict :=
  match d with
  | [] => [(k, v)]
  | (k', v') :: d' =>
      if String.eqb k k' then (k, v) :: d' else (k', v') :: setitem k v d'
  end.

Definition keys (d : dict) : list string := map fst d.
End Dict.
Arguments dict V : clear implicits.
End PyDict.

(** ** The collaborators

    [requests], [BeautifulSoup], [json]'s string encoder and the file system
    are outside the script.  They are taken as functions of their
    arguments that always return: one crawl sees one web, a request ends
    with a response or an exception, and parsing a page does not raise. *)

Inductive GetResult :=
| Raised (msg : string)                (* requests.get raised; [str(e)] *)
| Response (ok : bool) (text : string) (* [r.ok] and [r.text] *).

Record World := {
  requests_get : string -> GetResult;
  (* [BeautifulSoup(text, 'html.parser').prettify()] *)
  prettify : string -> string;
  (* [[str(s) for s in soup.find_all('h1')]] *)
  find_all_h1 : string -> list string;
  (* [link['href']] for each [link] of [soup.find_all('a', href=True)] *)
  find_all_a : string -> list string;
  (* [open(path, 'w')] and the write: [Some e] when it raises [e] *)
  open_w : string -> option string;
  (* the JSON literal of a [str] *)
  encode_basestring : string -> string
}.

(** The arguments of [MyScraper.__init__] (line 44). *)
Record Config := {
  start_urls : list string;
  max_workers : Z;
  max_recursion_depth : Z;
  output : string
}.

(** The value stored per URL (lines 107-110): keys [raw] and [headers]. *)
Record PageData := { raw : string; headers : list string }.

(** ** json.dumps(self.data, indent=4) *)

Module Json.

Definition NL : string := String (ascii_of_N 10) EmptyString.

Fixpoint pad (level : nat) : string :=
  match level with
  | O => EmptyString
  | S l => "    " +:+ pad l
  end.

Fixpoint join (sep : string) (xs : list string) : string :=
  match xs with
  | [] => EmptyString
  | [x] => x
  | x :: xs' => x +:+ sep +:+ join sep xs'
  end.

Definition items (level : nat) (xs : list string) : string :=
  NL +:+ pad (S level) +:+ join ("," +:+ NL +:+ pad (S level)) xs
  +:+ NL +:+ pad level.

Definition dumps_list (W : World) (level : nat) (xs : list string) : string :=
  match xs with
  | [] => "[]"
  | _ => "[" +:+ items level (map (encode_basestring W) xs) +:+ "]"
  end.

Definition dumps_page (W : World) (level : nat) (p : PageData) : string :=
  "{" +:+ items level
    [ encode_basestring W "raw" +:+ ": " +:+ encode_basestring W (raw p);
      encode_basestring W "headers" +:+ ": "
        +:+ dumps_list W (S level) (headers p) ]
  +:+ "}".

Definition dumps (W : World) (d : PyDict.dict PageData) : string :=
  match d with
  | [] => "{}"
  | _ => "{" +:+ items O
           (map (fun kv => encode_basestring W (fst kv) +:+ ": "
                           +:+ dumps_page W 1 (snd kv)) d)
         +:+ "}"
  end.

End Json.

(** ** The crawler as an interleaving machine *)

(** Where a call of [__scrape] stands (lines 91-127).  Each constructor is
    the point just before one access to something shared. *)
Inductive Pc :=
| PcRunning                                (* line 91: reads RUNNING *)
| PcVisited                                (* line 95: reads self.data *)
| PcGet                                    (* line 97: requests.get *)
| PcStore (text : string)                  (* line 111: self.data[url] = data *)
| PcLinks (hrefs : list string)            (* line 112: links still to follow *)
| PcPut (child : nat) (hrefs : list string) (* line 121: futures.put of the
                                               future submit returned *).

(** A future of the executor. *)
Inductive FutureState :=
| Pending                    (* in the executor's work queue *)
| Running (pc : Pc)          (* held by a worker thread *)
| Finished (result : string) (* [result()] returns this *).

(** One [executor.submit(self.__scrape, url, depth)].  [t_parent] records
    which call submitted it ([None]: [scrape], line 61); the script keeps
    no such field, it only serves to state where tasks come from. *)
Record Task := {
  t_url : string;
  t_depth : Z;
  t_parent : option nat;
  t_state : FutureState
}.

(** Where [scrape] stands (lines 60-75). *)
Inductive MainPc :=
| MSeed (urls : list string)              (* line 60: start URLs left *)
| MSeedPut (fut : nat) (urls : list string) (* line 61: put of the future *)
| MDrain                                  (* line 130: futures.empty() *)
| MWait (fut : nat)                       (* line 131: in result() *)
| MDump                                   (* lines 69-75 *)
| MReturned
| MRaised (err : string).

Record State := {
  RUNNING : bool;                    (* the module global *)
  data : PyDict.dict PageData;       (* self.data *)
  futures : list nat;                (* self.futures, next get() first *)
  pool : list Task;                  (* the executor's futures, by number *)
  main : MainPc;
  stdout : list string;              (* what was printed, in order *)
  files : PyDict.dict string;        (* what was written, by path *)
  fetched : list string              (* the requests.get calls, in order *)
}.

(** What the scheduler can let happen next. *)
Inductive Action :=
| ASignal             (* SIGINT is delivered: kill_threads *)
| AMain               (* the thread inside [scrape] moves *)
| AStart              (* a free worker takes the oldest waiting future *)
| AWorker (fut : nat) (* the worker running future [fut] moves *).

Definition set_RUNNING (b : bool) (s : State) : State :=
  {| RUNNING := b; data := data s; futures := futures s; pool := pool s;
     main := main s; stdout := stdout s; files := files s;
     fetched := fetched s |}.

Definition set_data (d : PyDict.dict PageData) (s : State) : State :=
  {| RUNNING := RUNNING s; data := d; futures := futures s; pool := pool s;
     main := main s; stdout := stdout s; files := files s;
     fetched := fetched s |}.

Definition set_futures (q : list nat) (s : State) : State :=
  {| RUNNING := RUNNING s; data := data s; futures := q; pool := pool s;
     main := main s; stdout := stdout s; files := files s;
     fetched := fetched s |}.

Definition set_pool (p : list Task) (s : State) : State :=
  {| RUNNING := RUNNING s; data := data s; futures := futures s; pool := p;
     main := main s; stdout := stdout s; files := files s;
     fetched := fetched s |}.

Definition set_main (m : MainPc) (s : State) : State :=
  {| RUNNING := RUNNING s; data := data s; futures := futures s;
     pool := pool s; main := m; stdout := stdout s; files := files s;
     fetched := fetched s |}.

Definition print (line : string) (s : State) : State :=
  {| RUNNING := RUNNING s; data := data s; futures := futures s;
     pool := pool s; main := main s; stdout := stdout s ++ [line];
     files := files s; fetched := fetched s |}.

Definition write_file (path text : string) (s : State) : State :=
  {| RUNNING := RUNNING s; data := data s; futures := futures s;
     pool := pool s; main := main s; stdout := stdout s;
     files := PyDict.setitem path text (files s); fetched := fetched s |}.

Definition log_get (url : string) (s : State) : State :=
  {| RUNNING := RUNNING s; data := data s; futures := futures s;
     pool := pool s; main := main s; stdout := stdout s; files := files s;
     fetched := fetched s ++ [url] |}.

Definition set_state (st : FutureState) (t : Task) : Task :=
  {| t_url := t_url t; t_depth := t_depth t; t_parent := t_parent t;
     t_state := st |}.

(** The future [f] moves to [st]. *)
Definition goto (f : nat) (t : Task) (st : FutureState) (s : State) : State :=
  set_pool (<[f := set_state st t]> (pool s)) s.

(** [executor.submit(self.__scrape, url, depth)]: a new future, numbered by
    its position; the state after it and the future. *)
Definition submit (url : string) (depth : Z) (parent : option nat)
    (s : State) : State :=
  set_pool (pool s ++ [ {| t_url := url; t_depth := depth;
                           t_parent := parent; t_state := Pending |} ]) s.

(** [self.futures.put(fut)] *)
Definition put (fut : nat) (s : State) : State :=
  set_futures (futures s ++ [fut]) s.

(** Line 102 and line 127: [f"{url}-{depth}"]. *)
Definition marker (url : string) (depth : Z) : string :=
  url +:+ "-" +:+ pretty depth.

Definition is_running (t : Task) : bool :=
  match t_state t with Running _ => true | _ => false end.

Definition is_pending (t : Task) : bool :=
  match t_state t with Pending => true | _ => false end.

(** Worker threads that hold a future. *)
Fixpoint busy_workers (p : list Task) : nat :=
  match p with
  | [] => O
  | t :: p' => ((if is_running t then 1 else 0) + busy_workers p')%nat
  end.

(** The head of the executor's work queue: the oldest future not started. *)
Fixpoint first_pending (p : list Task) : option nat :=
  match p with
  | [] => None
  | t :: p' => if is_pending t then Some O else option_map S (first_pending p')
  end.

Definition msg_skip : string :=
  "URL searched or max recursion hit! Returning...".
Definition msg_stopped : string := "Running set to false! Returning...".
Definition msg_sigint : string := "You pressed Ctrl+C!".

(** Lines 133-136. *)
Definition kill_threads (s : State) : State :=
  set_RUNNING false (print msg_sigint s).

Section Machine.
Variable W : World.
Variable C : Config.

(** [MyScraper(...)] before [scrape()] is called; RUNNING is still [True]. *)
Definition init : State :=
  {| RUNNING := true; data := []; futures := []; pool := [];
     main := MSeed (start_urls C); stdout := []; files := [];
     fetched := [] |}.

(** One move of the worker that runs future [f] (the body of [__scrape]):
    [t] is the future's task and [pc] where it stands. *)
Definition scrape_step (f : nat) (t : Task) (pc : Pc) (s : State) : State :=
  let url := t_url t in
  let depth := t_depth t in
  let ret := goto f t (Finished (marker url depth)) in
  match pc with
  | PcRunning =>
      if RUNNING s then goto f t (Running PcVisited) s
      else ret (print msg_stopped s)
  | PcVisited =>
      if negb (PyDict.contains url (data s))
         && (depth <? max_recursion_depth C)%Z
      then goto f t (Running PcGet) s
      else ret (print msg_skip s)
  | PcGet =>
      match requests_get W url with
      | Raised e => ret (print e (log_get url s))
      | Response true text =>
          goto f t (Running (PcStore text)) (log_get url s)
      | Response false _ => ret (log_get url s)
      end
  | PcStore text =>
      goto f t (Running (PcLinks (find_all_a W text)))
        (set_data
           (PyDict.setitem url
              {| raw := prettify W text; headers := find_all_h1 W text |}
              (data s)) s)
  | PcLinks [] => ret s
  | PcLinks (href :: hrefs) =>
      goto f t (Running (PcPut (length (pool s)) hrefs))
        (submit (Url.next_url url href) (depth + 1) (Some f) s)
  | PcPut child hrefs => goto f t (Running (PcLinks hrefs)) (put child s)
  end.

(** Lines 70-75: [jsonified] goes to the configured sink; [scrape] returns,
    or the error of the file sink leaves it. *)
Definition write_output (jsonified : string) (s : State) : State :=
  if String.eqb (output C) "stdout"
  then set_main MReturned (print jsonified s)
  else match open_w W (output C) with
       | None => set_main MReturned (write_file (output C) jsonified s)
       | Some e => set_main (MRaised e) s
       end.

(** One move of the thread inside [scrape] and [__drain_queue]; [None]
    while it is blocked in [result()] and after it has left [scrape]. *)
Definition main_step (s : State) : option State :=
  match main s with
  | MSeed [] => Some (set_main MDrain s)
  | MSeed (url :: urls) =>
      Some (set_main (MSeedPut (length (pool s)) urls) (submit url 0 None s))
  | MSeedPut fut urls => Some (set_main (MSeed urls) (put fut s))
  | MDrain =>
      match futures s with
      | [] => Some (set_main MDump s)
      | fut :: q => Some (set_main (MWait fut) (set_futures q s))
      end
  | MWait fut =>
      match pool s !! fut with
      | Some t =>
          match t_state t with
          | Finished r => Some (set_main MDrain (print r s))
          | _ => None
          end
      | None => None
      end
  | MDump => Some (write_output (Json.dumps W (data s)) s)
  | MReturned | MRaised _ => None
  end.

(** A free worker takes the head of the work queue. *)
Definition start_step (s : State) : option State :=
  if (Z.of_nat (busy_workers (pool s)) <? max_workers C)%Z
  then match first_pending (pool s) with
       | Some f =>
           match pool s !! f with
           | Some t => Some (goto f t (Running PcRunning) s)
           | None => None
           end
       | None => None
       end
  else None.

Definition worker_step (f : nat) (s : State) : option State :=
  match pool s !! f with
  | Some t =>
      match t_state t with
      | Running pc => Some (scrape_step f t pc s)
      | _ => None
      end
  | None => None
  end.

(** [scrape] is over: [main] returns and the process ends. *)
Definition exited (m : MainPc) : bool :=
  match m with
  | MReturned | MRaised _ => true
  | _ => false
  end.

Definition step (a : Action) (s : State) : option State :=
  match a with
  | ASignal => if exited (main s) then None else Some (kill_threads s)
  | AMain => main_step s
  | AStart => start_step s
  | AWorker f => worker_step f s
  end.

(** A schedule is a list of actions; [None] when one of them cannot happen. *)
Fixpoint run (acts : list Action) (s : State) : option State :=
  match acts with
  | [] => Some s
  | a :: acts' =>
      match step a s with
      | Some s' => run acts' s'
      | None => None
      end
  end.

Definition reachable (s : State) : Prop :=
  exists acts, run acts init = Some s.




(** *** A bound on the moves still to come

    Every move of the program is paid for in advance: a call at depth [d]
    owes its own moves, and for each link it may still follow the moves of
    submitting, queueing and draining the child and the child's own debt,
    which is computed [max_recursion_depth - (d + 1)] levels deep. *)











End Machine.

(** ** Notions the properties are stated with *)

Definition finished (t : Task) : bool :=
  match t_state t with Finished _ => true | _ => false end.

(** The call has passed both checks of lines 91 and 95. *)
Definition past_checks (t : Task) : bool :=
  match t_state t with
  | Running PcGet | Running (PcStore _) | Running (PcLinks _)
  | Running (PcPut _ _) => true
  | _ => false
  end.

(** The value lines 107-110 build from a response text. *)
Definition page_of (W : World) (text : string) : PageData :=
  {| raw := prettify W text; headers := find_all_h1 W text |}.

(** What reached the configured sink: the last line printed, or the content
    of the output file. *)
Definition emitted (C : Config) (s : State) : option string :=
  if String.eqb (output C) "stdout" then last (stdout s)
  else PyDict.get (output C) (files s).


(** The future a call is about to put in the queue (line 121, between
    [submit] and [put]). *)
Definition pc_child (st : FutureState) : option nat :=
  match st with
  | Running (PcPut g _) => Some g
  | _ => None
  end.

(** The future [scrape] holds outside the queue: the one it is about to put
    (line 61) or the one whose result it waits for (line 131). *)
Definition main_holds (m : MainPc) : option nat :=
  match m with
  | MSeedPut f _ | MWait f => Some f
  | _ => None
  end.

(** Futures are numbered by position in the pool; a call submits futures
    younger than itself. *)
Record wf (s : State) : Prop := {
  wf_futures : forall f, f ∈ futures s -> (f < length (pool s))%nat;
  wf_main : forall f, main_holds (main s) = Some f -> (f < length (pool s))%nat;
  wf_put : forall p t g,
    pool s !! p = Some t -> pc_child (t_state t) = Some g ->
    (p < g < length (pool s))%nat
}.

(** A future that has not finished is in the queue, or held by [scrape], or
    about to be put in the queue by the call that submitted it. *)
Definition tracked (s : State) (f : nat) : Prop :=
  f ∈ futures s
  \/ main_holds (main s) = Some f
  \/ exists p tp, pool s !! p = Some tp /\ pc_child (t_state tp) = Some f.

(** [scrape] has left the drain loop. *)
Definition drained (m : MainPc) : bool :=
  match m with
  | MDump | MReturned | MRaised _ => true
  | _ => false
  end.

Record drain_ok (s : State) : Prop := {
  dr_tracked : forall f t,
    pool s !! f = Some t -> finished t = false -> tracked s f;
  dr_empty : drained (main s) = true -> futures s = []
}.


(** Depths in the pool: [scrape] submits at depth 0, a call submits one
    level below itself and only after its own depth passed line 95. *)
Record depth_ok (C : Config) (s : State) : Prop := {
  dp_seed : forall g t,
    pool s !! g = Some t -> t_parent t = None -> t_depth t = 0;
  dp_child : forall g t p,
    pool s !! g = Some t -> t_parent t = Some p ->
    (p < g)%nat
    /\ exists tp, pool s !! p = Some tp /\ t_depth t = t_depth tp + 1
                  /\ t_depth tp < max_recursion_depth C;
  dp_nonneg : forall g t, pool s !! g = Some t -> 0 <= t_depth t;
  dp_checked : forall g t,
    pool s !! g = Some t -> past_checks t = true ->
    t_depth t < max_recursion_depth C
}.

(** The store: one entry per key, each the whole value of a page that
    answered; a call about to store holds the text of its own URL. *)
Record store_ok (W : World) (s : State) : Prop := {
  so_nodup : NoDup (PyDict.keys (data s));
  so_entry : forall u p,
    (u, p) ∈ data s ->
    exists text, requests_get W u = Response true text /\ p = page_of W text;
  so_pc : forall f t text,
    pool s !! f = Some t -> t_state t = Running (PcStore text) ->
    requests_get W (t_url t) = Response true text
}.

(** What [scrape] leaves behind when it is over. *)
Record output_ok (W : World) (C : Config) (s : State) : Prop := {
  oo_returned :
    main s = MReturned ->
    emitted C s = Some (Json.dumps W (data s))
    /\ (String.eqb (output C) "stdout" = false -> open_w W (output C) = None);
  oo_raised : forall e,
    main s = MRaised e ->
    String.eqb (output C) "stdout" = false /\ open_w W (output C) = Some e
}.

(** What a finished call resolved to (lines 102 and 127). *)
Definition resolved_to_marker (s : State) : Prop :=
  forall g t r,
    pool s !! g = Some t -> t_state t = Finished r ->
    r = marker (t_url t) (t_depth t).

(** The start URLs [scrape] has not submitted yet. *)
Definition seeds_left (m : MainPc) : list string :=
  match m with
  | MSeed urls | MSeedPut _ urls => urls
  | _ => []
  end.



(** What holds all along when there is no start URL. *)
Record no_seed_inv (s : State) : Prop := {
  ns_pool : pool s = [];
  ns_fetched : fetched s = [];
  ns_data : data s = [];
  ns_futures : futures s = [];
  ns_left : seeds_left (main s) = [];
  ns_holds : main_holds (main s) = None
}.

(** ** Concrete webs and configurations *)

Definition quote : string := String (ascii_of_N 34) EmptyString.

(** A web with one page, "https://a.test/", whose only link is "/b". *)
Definition web_a : World :=
  {| requests_get := fun u =>
       if String.eqb u "https://a.test/" then Response true "<a href=/b>"
       else Raised "ConnectionError";
     prettify := fun text => text;
     find_all_h1 := fun _ => [];
     find_all_a := fun text =>
       if String.eqb text "<a href=/b>" then ["/b"] else [];
     open_w := fun _ => None;
     encode_basestring := fun x => quote +:+ x +:+ quote |}.

(** A web where every request raises and every file can be written. *)
Definition web_down : World :=
  {| requests_get := fun _ => Raised "ConnectionError";
     prettify := fun text => text;
     find_all_h1 := fun _ => [];
     find_all_a := fun _ => [];
     open_w := fun _ => None;
     encode_basestring := fun x => quote +:+ x +:+ quote |}.

(** The same web on a machine where no file can be opened for writing. *)
Definition web_readonly : World :=
  {| requests_get := fun _ => Raised "ConnectionError";
     prettify := fun text => text;
     find_all_h1 := fun _ => [];
     find_all_a := fun _ => [];
     open_w := fun _ => Some "FileNotFoundError";
     encode_basestring := fun x => quote +:+ x +:+ quote |}.

(** One seed, depth 1, five workers, output on stdout. *)
Definition cfg_a : Config :=
  {| start_urls := ["https://a.test/"]; max_workers := 5;
     max_recursion_depth := 1; output := "stdout" |}.

(** No seed, output to a file. *)
Definition cfg_empty : Config :=
  {| start_urls := []; max_workers := 5; max_recursion_depth := 5;
     output := "/nonexistent/out.json" |}.

(** The schedule that lets the seed of [cfg_a] run up to the [put] of its
    child. *)
Definition sched_child_queued : list Action :=
  [AMain; AMain; AStart; AWorker 0; AWorker 0; AWorker 0; AWorker 0;
   AWorker 0; AWorker 0].

(** The state [sched_child_queued] leads to. *)
Definition state_child_queued : State :=
  Eval vm_compute in
    match run web_a cfg_a sched_child_queued (init cfg_a) with
    | Some s => s
    | None => init cfg_a
    end.

(** The seed of [cfg_a] has returned and its child, at depth 1, stands at
    the check of line 95. *)
Definition sched_child_checked : list Action :=
  sched_child_queued ++ [AWorker 0; AStart; AWorker 1].

Definition state_child_checked : State :=
  Eval vm_compute in
    match run web_a cfg_a sched_child_checked (init cfg_a) with
    | Some s => s
    | None => init cfg_a
    end.

(** Ctrl+C arrives before the seed's call has read RUNNING. *)
Definition sched_cancelled : list Action := [AMain; AMain; ASignal; AStart].

Definition state_cancelled : State :=
  Eval vm_compute in
    match run web_a cfg_a sched_cancelled (init cfg_a) with
    | Some s => s
    | None => init cfg_a
    end.

(** ** More notions: one call on its own, and what the crawl has done *)



(** The seed of [cfg_a] has been submitted, queued and taken by a worker. *)
Definition sched_started : list Action := [AMain; AMain; AStart].

Definition state_started : State :=
  Eval vm_compute in
    match run web_a cfg_a sched_started (init cfg_a) with
    | Some s => s
    | None => init cfg_a
    end.

(** The call stands between its reading of RUNNING and its request. *)
Definition checking (t : Task) : bool :=
  match t_state t with
  | Running PcVisited | Running PcGet => true
  | _ => false
  end.

(** The URLs of the futures at depth 0, in the order of the pool. *)
Fixpoint root_urls (p : list Task) : list string :=
  match p with
  | [] => []
  | t :: p' =>
      if (t_depth t =? 0)%Z then t_url t :: root_urls p' else root_urls p'
  end.

(** Requests and the store: a key of the store was requested; a requested
    URL that answers is stored, or held by a call about to store it. *)
Record fetch_inv (W : World) (s : State) : Prop := {
  fi_keys : forall u, u ∈ PyDict.keys (data s) -> u ∈ fetched s;
  fi_pc : forall f t text,
    pool s !! f = Some t -> t_state t = Running (PcStore text) ->
    t_url t ∈ fetched s;
  fi_ok : forall u text,
    u ∈ fetched s -> requests_get W u = Response true text ->
    PyDict.get u (data s) = Some (page_of W text)
    \/ exists f t, pool s !! f = Some t /\ t_url t = u
                   /\ t_state t = Running (PcStore text)
}.

(** Every future of the pool is still to be waited for, or its marker has
    been printed. *)
Definition printed_or_tracked (s : State) : Prop :=
  forall f t,
    pool s !! f = Some t ->
    tracked s f \/ marker (t_url t) (t_depth t) ∈ stdout s.




(** The request for [u] answers [ok]. *)
Definition answers (W : World) (u : string) : bool :=
  match requests_get W u with
  | Response true _ => true
  | _ => false
  end.

(** No URL that answers is requested twice. *)
Definition requested_once (W : World) (s : State) : Prop :=
  forall i j u,
    fetched s !! i = Some u -> fetched s !! j = Some u ->
    answers W u = true -> i = j.

(** A call about to make its request has a URL that is not in the store. *)
Definition get_is_new (s : State) : Prop :=
  forall f t,
    pool s !! f = Some t -> t_state t = Running PcGet ->
    PyDict.contains (t_url t) (data s) = false.



(** ** More concrete crawls *)

(** The crawl of [cfg_a] on [web_a], run to the end of [scrape]. *)
Definition sched_done : list Action :=
  sched_child_checked
  ++ [AWorker 1; AMain; AMain; AMain; AMain; AMain; AMain; AMain].

Definition state_done : State :=
  Eval vm_compute in
    match run web_a cfg_a sched_done (init cfg_a) with
    | Some s => s
    | None => init cfg_a
    end.

(** One seed and a maximum depth of 0. *)
Definition cfg_flat : Config :=
  {| start_urls := ["https://a.test/"]; max_workers := 5;
     max_recursion_depth := 0; output := "stdout" |}.

Definition sched_flat : list Action :=
  [AMain; AMain; AStart; AWorker 0; AWorker 0].

Definition state_flat : State :=
  Eval vm_compute in
    match run web_a cfg_flat sched_flat (init cfg_flat) with
    | Some s => s
    | None => init cfg_flat
    end.

(** One seed and a single worker. *)
Definition cfg_one : Config :=
  {| start_urls := ["https://a.test/"]; max_workers := 1;
     max_recursion_depth := 1; output := "stdout" |}.

Definition state_one : State :=
  Eval vm_compute in
    match run web_a cfg_one sched_child_queued (init cfg_one) with
    | Some s => s
    | None => init cfg_one
    end.

(** The future may still make its request: it has not started, or stands
    before line 97. *)
Definition may_request (t : Task) : nat :=
  match t_state t with
  | Pending | Running PcRunning | Running PcVisited | Running PcGet => 1%nat
  | _ => O
  end.






(** The futures that calls have obtained from [submit] and not yet put in
    the queue (line 121), in pool order of the calls. *)
Definition put_pending (p : list Task) : list nat :=
  omap (fun t => pc_child (t_state t)) p.

(** The future [scrape] holds outside the queue, if any. *)
Definition held (m : MainPc) : list nat :=
  match main_holds m with
  | Some f => [f]
  | None => []
  end.

(** The futures still to be waited for: in the queue, held by [scrape], or
    on their way into the queue. *)
Definition live (s : State) : list nat :=
  futures s ++ held (main s) ++ put_pending (pool s).

(** * Properties *)

(** ** Lists and dictionaries *)

Lemma sum_list_with_insert {A} (f : A -> nat) (l : list A) (i : nat) (x y : A) :
  l !! i = Some x ->
  (sum_list_with f (<[i:=y]> l) + f x = sum_list_with f l + f y)%nat.
Proof.
  revert i. induction l as [|a l IH]; intros [|i] Hi; simplify_eq/=.
  - lia.
  - specialize (IH _ Hi). lia.
Qed.

Section DictFacts.
Context {V : Type}.
Implicit Types (d : PyDict.dict V) (k u : string) (v p : V).

Lemma elem_of_setitem d k v u p :
  (u, p) ∈ PyDict.setitem k v d -> (u = k /\ p = v) \/ (u, p) ∈ d.
Proof.
  induction d as [|[k' v'] d IH]; simpl.
  - intros H%list_elem_of_singleton. injection H as -> ->. by left.
  - destruct (String.eqb_spec k k') as [->|Hne].
    + intros [H|Hin]%elem_of_cons; [injection H as -> ->; by left|].
      right. by apply elem_of_cons; right.
    + intros [Heq|Hin]%elem_of_cons.
      * right. apply elem_of_cons. by left.
      * destruct (IH Hin) as [?|?]; [by left|].
        right. apply elem_of_cons. by right.
Qed.

Lemma keys_setitem d k v u :
  u ∈ PyDict.keys (PyDict.setitem k v d) -> u = k \/ u ∈ PyDict.keys d.
Proof.
  unfold PyDict.keys. intros ([u' p] & -> & Hin)%list_elem_of_fmap.
  destruct (elem_of_setitem _ _ _ _ _ Hin) as [[-> _]|Hd]; [by left|].
  right. apply list_elem_of_fmap. by exists (u', p).
Qed.

Lemma NoDup_setitem d k v :
  NoDup (PyDict.keys d) -> NoDup (PyDict.keys (PyDict.setitem k v d)).
Proof.
  induction d as [|[k' v'] d IH]; simpl.
  - intros _. apply NoDup_singleton.
  - intros [Hnin Hnd]%NoDup_cons.
    destruct (String.eqb_spec k k') as [->|Hne]; simpl.
    + by apply NoDup_cons.
    + apply NoDup_cons. split; [|by apply IH].
      intros [->|Hin]%keys_setitem; done.
Qed.

Lemma get_setitem d k v u :
  PyDict.get u (PyDict.setitem k v d)
  = if String.eqb u k then Some v else PyDict.get u d.
Proof.
  induction d as [|[k' v'] d IH]; simpl.
  - done.
  - destruct (String.eqb_spec k k') as [->|Hne]; simpl.
    + by destruct (String.eqb u k').
    + rewrite IH. destruct (String.eqb_spec u k') as [->|Hne'].
      * destruct (String.eqb_spec k' k); congruence.
      * done.
Qed.



End DictFacts.

Section Properties.
Variable W : World.
Variable C : Config.

(** ** Every move of the program lowers the bound *)














Lemma first_pending_Some (p : list Task) (f : nat) :
  first_pending p = Some f ->
  exists t, p !! f = Some t /\ t_state t = Pending.
Proof.
  revert f. induction p as [|t p IH]; intros f H; simpl in H; [done|].
  unfold is_pending in H. destruct (t_state t) eqn:E.
  - simplify_eq. exists t. done.
  - destruct (first_pending p) as [g|]; simplify_eq/=.
    destruct (IH g eq_refl) as (t' & ? & ?). eauto.
  - destruct (first_pending p) as [g|]; simplify_eq/=.
    destruct (IH g eq_refl) as (t' & ? & ?). eauto.
Qed.


Lemma start_step_inv (s s' : State) :
  start_step C s = Some s' ->
  exists f t, pool s !! f = Some t /\ t_state t = Pending
              /\ s' = goto f t (Running PcRunning) s.
Proof.
  unfold start_step. intros H. repeat case_match; simplify_eq.
  match goal with
  | H : first_pending _ = Some _ |- _ =>
      destruct (first_pending_Some _ _ H) as (t' & ? & ?)
  end.
  simplify_eq. eauto.
Qed.





(** ** Taking a move apart *)





Ltac worker_inv H :=
  match type of H with
  | worker_step _ _ ?f ?s = Some _ =>
      let t := fresh "t" in
      let pc := fresh "pc" in
      let Hf := fresh "Hf" in
      let Hst := fresh "Hst" in
      unfold worker_step in H;
      destruct (pool s !! f) as [t|] eqn:Hf; [|discriminate H];
      destruct (t_state t) as [|pc|] eqn:Hst; try discriminate H;
      injection H as <-;
      destruct pc as [| | |?text|[|?h ?hs]|?g ?hs]; simpl in *;
      repeat case_match
  end.

Ltac step_inv H :=
  match type of H with
  | step _ _ ?a ?s = Some _ =>
      destruct a as [| | |?f]; simpl in H;
      [ destruct (exited (main s)) eqn:?; [discriminate H|];
        injection H as <-
      | unfold main_step, write_output in H; repeat case_match; simplify_eq
      | apply start_step_inv in H; destruct H as (?f & ?t & ? & ? & ->)
      | worker_inv H ]
  end.

Ltac pool_inv :=
  simpl in *;
  repeat match goal with
  | H : <[_:=_]> _ !! _ = Some _ |- _ =>
      apply list_lookup_insert_Some in H;
      destruct H as [(<- & <- & ?)|(? & H)]
  | H : (_ ++ [_]) !! _ = Some _ |- _ =>
      apply lookup_snoc_Some in H; destruct H as [(? & H)|(-> & <-)]
  | H : _ ∈ _ ++ _ |- _ => apply elem_of_app in H; destruct H as [H|H]
  | H : _ ∈ [_] |- _ => apply list_elem_of_singleton in H; subst
  | H : _ ∈ [] |- _ => apply elem_of_nil in H; destruct H
  | H : Some _ = Some _ |- _ => injection H as H; subst
  end;
  rewrite ?length_insert, ?length_app in *; simpl in *.

Lemma wf_step (a : Action) (s s' : State) :
  wf s -> step W C a s = Some s' -> wf s'.
Proof.
  intros [Hq Hm Hp] H. step_inv H.
  all: repeat match goal with
       | H : main _ = _ |- _ => rewrite H in Hm; simpl in Hm
       | H : futures _ = _ |- _ => rewrite H in Hq
       end.
  all: try match goal with
       | Hf : pool _ !! ?f = Some ?t, Hst : t_state ?t = Running _ |- _ =>
           pose proof (fun g => Hp _ _ g Hf) as Hpf; rewrite Hst in Hpf;
           simpl in Hpf
       end.
  all: split; intros; pool_inv.
  all: repeat match goal with
       | H : pool _ !! _ = Some _ |- _ =>
           pose proof (lookup_lt_Some _ _ _ H);
           try (pose proof (Hp _ _ _ H ltac:(eassumption)));
           clear H
       | H : _ ∈ futures _ |- _ => apply Hq in H
       | H : main_holds (main _) = Some _ |- _ => apply Hm in H
       end.
  all: try discriminate.
  all: try (pose proof (Hpf _ eq_refl)).
  all: try (pose proof (Hm _ eq_refl)).
  all: simplify_eq.
  all: try lia.
  all: try (apply Hq; rewrite elem_of_cons; auto; fail).
  all: try (match goal with
            | H : futures _ = [], H2 : _ ∈ futures _ |- _ =>
                rewrite H in H2; by apply elem_of_nil in H2
            end).
Qed.

Lemma wf_init : wf (init C).
Proof.
  split; simpl; intros.
  - by apply elem_of_nil in H.
  - by destruct (start_urls C).
  - done.
Qed.

Lemma reachable_ind (P : State -> Prop) :
  P (init C) ->
  (forall a s s', P s -> step W C a s = Some s' -> P s') ->
  forall s, reachable W C s -> P s.
Proof.
  intros H0 Hstep s [acts Hrun].
  assert (Hgen : forall s0, P s0 -> run W C acts s0 = Some s -> P s).
  { clear Hrun. induction acts as [|a acts IH]; intros s0 Hs0 Hr; simpl in Hr.
    - by simplify_eq.
    - destruct (step W C a s0) as [s1|] eqn:E; [|done]. eauto. }
  eauto.
Qed.

Lemma reachable_wf (s : State) : reachable W C s -> wf s.
Proof. apply reachable_ind; [exact wf_init | intros; by eapply wf_step]. Qed.


(** ** When the drain loop is left, every call has returned *)

Lemma drained_all_finished (s : State) :
  wf s -> drain_ok s -> futures s = [] -> main_holds (main s) = None ->
  forall f t, pool s !! f = Some t -> finished t = true.
Proof.
  intros Hwf [Htr _] Hq Hm f.
  induction f as [f IH] using lt_wf_ind. intros t Hf.
  destruct (finished t) eqn:Hfin; [done|].
  destruct (Htr _ _ Hf Hfin) as [Hin|[Hmain|(p & tp & Hp & Hc)]].
  - rewrite Hq in Hin. by apply elem_of_nil in Hin.
  - congruence.
  - destruct (wf_put _ Hwf _ _ _ Hp Hc) as [Hlt _].
    specialize (IH _ Hlt _ Hp). unfold finished in IH.
    destruct (t_state tp) as [|[]|]; simplify_eq/=.
Qed.

Lemma drained_holds_none (m : MainPc) :
  drained m = true -> main_holds m = None.
Proof. by destruct m. Qed.


Lemma drain_step_empty (a : Action) (s s' : State) :
  wf s -> drain_ok s -> step W C a s = Some s' ->
  drained (main s') = true -> futures s' = [].
Proof.
  intros Hwf Hd H.
  pose proof (drained_all_finished s Hwf Hd) as Hall.
  destruct Hd as [Htr Hem].
  step_inv H; simpl; intros Hdr; try discriminate; try tauto.
  all: try (match goal with H : main _ = _ |- _ =>
              rewrite H in Hem; simpl in Hem; tauto end).
  all: exfalso; specialize (Hall (Hem Hdr) (drained_holds_none _ Hdr)).
  all: match goal with
       | Hf : pool _ !! _ = Some ?t |- _ =>
           specialize (Hall _ _ Hf); unfold finished in Hall
       end.
  all: match goal with
       | H : t_state _ = _ |- _ => rewrite H in Hall; discriminate
       end.
Qed.

Lemma drain_step (a : Action) (s s' : State) :
  wf s -> drain_ok s -> step W C a s = Some s' -> drain_ok s'.
Proof.
  intros Hwf Hd H. split; [|by eapply drain_step_empty].
  destruct Hd as [Htr Hem].
  step_inv H.
  all: intros f' t' Hf' Hfin; pool_inv.
  all: try (match goal with
            | H : pool _ !! ?g = Some ?t0 |- _ =>
                assert (Hold : tracked s g)
                  by (apply (Htr _ _ H);
                      first [ assumption
                            | unfold finished;
                              match goal with
                              | H : t_state _ = _ |- _ => by rewrite H
                              end ])
            end).
  all: try discriminate.
  all: repeat match goal with
       | H : main _ = _ |- _ => rewrite H in *; simpl in *
       | H : futures _ = _ |- _ => rewrite H in *; simpl in *
       end.
  all: try (destruct Hold as [Hin|[Hmain|(p & tp & Hp & Hc)]]).
  all: unfold tracked; simpl.
  all: repeat match goal with
       | H : main _ = _ |- _ => rewrite H in *; simpl in *
       | H : futures _ = _ |- _ => rewrite H in *; simpl in *
       end.
  all: try discriminate.
  all: try (left; rewrite ?elem_of_app, ?list_elem_of_singleton; auto; fail).
  all: try (right; left; congruence).
  all: try (right; right; exists p, tp; split; [|done];
            first [ assumption | by apply lookup_app_l_Some ]).
  all: try (right; right; exists p, tp; split; [|done];
            rewrite list_lookup_insert_ne;
            [ first [ assumption | by apply lookup_app_l_Some ] |];
            intros ->; simplify_eq;
            match goal with
            | H : t_state _ = _ |- _ => rewrite H in Hc
            end; discriminate).
  all: try (injection Hmain as <-).
  all: try (left; rewrite ?elem_of_app, ?list_elem_of_singleton; auto; fail).
  all: try (apply elem_of_cons in Hin; destruct Hin as [->|Hin]; auto; fail).
  all: try (simplify_eq; unfold finished in Hfin;
            match goal with
            | H : t_state _ = Finished _ |- _ => rewrite H in Hfin
            end; discriminate).
  all: try (match goal with
            | H : pool _ !! ?f0 = Some ?t0, Hs : t_state ?t0 = Running _
              |- _ =>
                right; right; eexists f0, _; split;
                [ apply list_lookup_insert_eq; rewrite length_app;
                  apply lookup_lt_Some in H; lia
                | done ]
            end).
  all: match goal with
       | H : pool _ !! ?f0 = Some ?t0, Hs : t_state ?t0 = Running _ |- _ =>
           destruct (decide (p = f0)) as [->|Hne]
       end.
  all: try (simplify_eq;
            match goal with
            | H : t_state _ = Running _ |- _ => rewrite H in Hc
            end; simpl in Hc; injection Hc as ->;
            left; rewrite elem_of_app, list_elem_of_singleton; auto; fail).
  all: right; right; exists p, tp; split; [|done].
  all: by rewrite list_lookup_insert_ne.
Qed.

Lemma drain_init : drain_ok (init C).
Proof. split; [intros f t Hf|]; simpl in *; [|done]. by destruct f. Qed.

Lemma reachable_drain (s : State) : reachable W C s -> wf s /\ drain_ok s.
Proof.
  revert s. apply (reachable_ind (fun s => wf s /\ drain_ok s)).
  - split; [exact wf_init | exact drain_init].
  - intros a s0 s1 [Hwf Hd] Hst.
    split; [by eapply wf_step | by eapply drain_step].
Qed.

(** Once [scrape] is past the drain loop no call is waiting or running. *)
Lemma reachable_drained_finished (s : State) (f : nat) (t : Task) :
  reachable W C s -> drained (main s) = true ->
  pool s !! f = Some t -> finished t = true.
Proof.
  intros Hr Hdr Hf. destruct (reachable_drain s Hr) as [Hwf Hd].
  eapply drained_all_finished; eauto using drained_holds_none.
  by apply (dr_empty _ Hd).
Qed.

(** ** The program can always move until [scrape] is over *)




Lemma run_snoc (acts : list Action) (a : Action) (s s1 s2 : State) :
  run W C acts s = Some s1 -> step W C a s1 = Some s2 ->
  run W C (acts ++ [a]) s = Some s2.
Proof.
  revert s. induction acts as [|b acts IH]; intros s Hr Hs; simpl in *.
  - simplify_eq. by rewrite Hs.
  - destruct (step W C b s); [|done]. eauto.
Qed.

Lemma reachable_init : reachable W C (init C).
Proof. by exists []. Qed.

Lemma reachable_step (a : Action) (s s' : State) :
  reachable W C s -> step W C a s = Some s' -> reachable W C s'.
Proof. intros [acts Hr] Hs. exists (acts ++ [a]). by eapply run_snoc. Qed.


(** ** Where the futures of the pool come from *)

Lemma set_state_id (t : Task) : set_state (t_state t) t = t.
Proof. by destruct t. Qed.

(** A move never changes the URL, the depth or the origin of a future. *)
Lemma lookup_keep (l : list Task) (g : nat) (t : Task) :
  l !! g = Some t -> exists st, l !! g = Some (set_state st t).
Proof. exists (t_state t). by rewrite set_state_id. Qed.

Lemma step_task_stable (a : Action) (s s' : State) (g : nat) (t : Task) :
  step W C a s = Some s' -> pool s !! g = Some t ->
  exists st, pool s' !! g = Some (set_state st t).
Proof.
  intros H Hg.
  pose proof (lookup_lt_Some _ _ _ Hg) as Hlt.
  step_inv H; simpl.
  all: try (apply lookup_keep; first [ exact Hg | apply lookup_app_l_Some, Hg ]).
  all: match goal with
       | H : pool _ !! ?f0 = Some ?t0 |- context [<[?f0:=_]> _] =>
           destruct (decide (g = f0)) as [->|Hne]
       end.
  all: simplify_eq.
  all: try (eexists; apply list_lookup_insert_eq; rewrite ?length_app; lia).
  all: rewrite list_lookup_insert_ne by done.
  all: apply lookup_keep; first [ exact Hg | apply lookup_app_l_Some, Hg ].
Qed.

(** A future of the pool after a move was there before, or is the one the
    move submitted: by [scrape] at depth 0, or by a call that had passed its
    checks, one level below it. *)
Lemma step_task_origin (a : Action) (s s' : State) (g : nat) (t' : Task) :
  step W C a s = Some s' -> pool s' !! g = Some t' ->
  (exists t, pool s !! g = Some t /\ t' = set_state (t_state t') t
     /\ (past_checks t' = true ->
         past_checks t = true
         \/ (t_state t = Running PcVisited
             /\ t_depth t < max_recursion_depth C)))
  \/ (g = length (pool s) /\ t_state t' = Pending
      /\ ((a = AMain /\ t_parent t' = None /\ t_depth t' = 0)
          \/ exists f tp h, a = AWorker f /\ t_parent t' = Some f
               /\ pool s !! f = Some tp /\ past_checks tp = true
               /\ t_depth t' = t_depth tp + 1
               /\ t_url t' = Url.next_url (t_url tp) h)).
Proof.
  intros H Hg. step_inv H; pool_inv.
  all: try (left; eexists; split; [eassumption|]; split;
            [by rewrite set_state_id|intros ?; by left]).
  all: try (right; split; [done|]; split; [done|]; left; done).
  all: try (match goal with
            | Hf : pool _ !! ?f0 = Some ?t0, Hs : t_state ?t0 = Running _
              |- _ =>
                right; split; [done|]; split; [done|]; right;
                eexists f0, t0, _; repeat split; try done;
                unfold past_checks; by rewrite Hs
            end).
  all: left; eexists; split; [eassumption|]; split; [done|].
  all: unfold past_checks; simpl; try discriminate.
  all: match goal with
       | Hs : t_state _ = _ |- _ => rewrite Hs
       end; intros _; auto.
  right. split; [done|].
  match goal with
  | H : _ && _ = true |- _ =>
      apply andb_true_iff in H; destruct H as [_ H]; by apply Z.ltb_lt in H
  end.
Qed.

(** ** Depths *)

Lemma depth_step (a : Action) (s s' : State) :
  wf s -> depth_ok C s -> step W C a s = Some s' -> depth_ok C s'.
Proof.
  intros Hwf [Hseed Hchild Hnn Hchk] H.
  split.
  - intros g t' Hg Hpar.
    destruct (step_task_origin _ _ _ _ _ H Hg)
      as [(t & Ht & Heq & _)|(-> & _ & [(_ & _ & Hd)|(f & tp & h & _ & Hp & _)])].
    + rewrite Heq in Hpar |- *. simpl in *. eauto.
    + done.
    + congruence.
  - intros g t' p Hg Hpar.
    destruct (step_task_origin _ _ _ _ _ H Hg)
      as [(t & Ht & Heq & _)|(-> & _ & [(_ & Hp & _)|(f & tp & h & _ & Hp & Hf & Hpc & Hd & _)])].
    + rewrite Heq in Hpar |- *. simpl in *.
      destruct (Hchild _ _ _ Ht Hpar) as (Hlt & tp & Htp & Hd & Hmax).
      split; [done|].
      destruct (step_task_stable _ _ _ _ _ H Htp) as [st Hst].
      exists (set_state st tp). done.
    + congruence.
    + assert (p = f) as -> by congruence.
      split; [by eapply lookup_lt_Some|].
      destruct (step_task_stable _ _ _ _ _ H Hf) as [st Hst].
      exists (set_state st tp). simpl. eauto.
  - intros g t' Hg.
    destruct (step_task_origin _ _ _ _ _ H Hg)
      as [(t & Ht & Heq & _)|(-> & _ & [(_ & _ & Hd)|(f & tp & h & _ & _ & Hf & _ & Hd & _)])].
    + rewrite Heq. simpl. eauto.
    + lia.
    + specialize (Hnn _ _ Hf). lia.
  - intros g t' Hg Hpc.
    destruct (step_task_origin _ _ _ _ _ H Hg)
      as [(t & Ht & Heq & Hor)|(-> & Hpend & _)].
    + rewrite Heq. simpl. destruct (Hor Hpc) as [?|[_ ?]]; eauto.
    + unfold past_checks in Hpc. by rewrite Hpend in Hpc.
Qed.

Lemma depth_init : depth_ok C (init C).
Proof. split; intros [|g] *; simpl; done. Qed.

Lemma reachable_depth (s : State) : reachable W C s -> depth_ok C s.
Proof.
  intros Hr.
  enough (wf s /\ depth_ok C s) by tauto.
  revert s Hr. apply (reachable_ind (fun s => wf s /\ depth_ok C s)).
  - split; [exact wf_init | exact depth_init].
  - intros a s0 s1 [Hwf Hd] Hst.
    split; [by eapply wf_step | by eapply depth_step].
Qed.

(** ** The store *)

Lemma step_data (a : Action) (s s' : State) :
  step W C a s = Some s' ->
  data s' = data s
  \/ exists f t text, a = AWorker f /\ pool s !! f = Some t
        /\ t_state t = Running (PcStore text)
        /\ data s' = PyDict.setitem (t_url t) (page_of W text) (data s).
Proof.
  intros H. step_inv H; simpl; try (by left).
  right. eauto 10.
Qed.

Lemma store_step (a : Action) (s s' : State) :
  store_ok W s -> step W C a s = Some s' -> store_ok W s'.
Proof.
  intros [Hnd Hent Hpc] H. split.
  - destruct (step_data _ _ _ H) as [->|(f & t & text & _ & _ & _ & ->)];
      [done|]. by apply NoDup_setitem.
  - intros u p.
    destruct (step_data _ _ _ H) as [->|(f & t & text & _ & Hf & Hst & ->)];
      [by apply Hent|].
    intros [[-> ->]|Hin]%elem_of_setitem; [|by apply Hent].
    exists text. split; [|done]. by eapply Hpc.
  - intros f t text Hf Hst. step_inv H; pool_inv.
    all: try (by eapply Hpc).
    all: try discriminate.
    all: match goal with
         | H : Running _ = Running _ |- _ => by injection H as <-
         end.
Qed.

Lemma store_init : store_ok W (init C).
Proof.
  split; simpl.
  - apply NoDup_nil_2.
  - intros u p H. by apply elem_of_nil in H.
  - intros [|f] *; done.
Qed.


(** ** The end of [scrape] *)

Lemma exited_drained (m : MainPc) : exited m = true -> drained m = true.
Proof. by destruct m. Qed.

(** After [scrape] nothing moves any more. *)
Lemma exited_stuck (a : Action) (s : State) :
  reachable W C s -> exited (main s) = true -> step W C a s = None.
Proof.
  intros Hr Hex.
  pose proof (fun f t => reachable_drained_finished s f t Hr
                           (exited_drained _ Hex)) as Hfin.
  destruct (step W C a s) as [s'|] eqn:H; [exfalso|done].
  step_inv H; try congruence.
  all: try (destruct (main s); discriminate).
  all: match goal with
       | Hf : pool _ !! _ = Some ?t, Hs : t_state ?t = _ |- _ =>
           specialize (Hfin _ _ Hf); unfold finished in Hfin;
           rewrite Hs in Hfin; discriminate
       end.
Qed.

Lemma output_step (a : Action) (s s' : State) :
  reachable W C s -> output_ok W C s -> step W C a s = Some s' ->
  output_ok W C s'.
Proof.
  intros Hr Hout H.
  destruct (exited (main s)) eqn:Hex.
  { by rewrite (exited_stuck a s Hr Hex) in H. }
  clear Hout. step_inv H.
  all: split; [intros Hm|intros e Hm]; simpl in *; try congruence.
  all: try (match goal with
            | H : exited (main _) = false |- _ =>
                rewrite Hm in H; discriminate
            end).
  all: unfold emitted; simpl.
  all: repeat match goal with
       | H : String.eqb _ _ = _ |- _ => rewrite H
       end; simpl.
  - split; [apply last_snoc|done].
  - by injection Hm as <-.
  - split; [|done]. by rewrite get_setitem, String.eqb_refl.
Qed.

Lemma output_init : output_ok W C (init C).
Proof. split; simpl; intros; discriminate. Qed.

Lemma reachable_output (s : State) : reachable W C s -> output_ok W C s.
Proof.
  intros Hr. enough (reachable W C s /\ output_ok W C s) by tauto.
  revert s Hr.
  apply (reachable_ind (fun s => reachable W C s /\ output_ok W C s)).
  - split; [exact reachable_init | exact output_init].
  - intros a s0 s1 [Hr Ho] Hst.
    split; [by eapply reachable_step | by eapply output_step].
Qed.

(** ** Start URLs that do not answer, and no start URL at all *)



Lemma no_seed_step (a : Action) (s s' : State) :
  no_seed_inv s -> step W C a s = Some s' -> no_seed_inv s'.
Proof.
  intros [Hp Hf Hd Hq Hl Hh] H.
  step_inv H.
  all: try (match goal with
            | Hf : pool _ !! _ = Some _ |- _ => rewrite Hp in Hf; done
            end).
  all: repeat match goal with
       | H : main _ = _ |- _ => rewrite H in *; simpl in *
       | H : futures _ = _ |- _ => rewrite H in *; simpl in *
       end.
  all: try discriminate.
  all: by split.
Qed.

Lemma no_seed_init : start_urls C = [] -> no_seed_inv (init C).
Proof. intros H. by split. Qed.

(** * The claims *)

(** C1, as amended.  In every reachable state every future of the pool, and
    so every future in the queue, has depth 0 or a depth between 1 and the
    maximum recursion depth (the maximum included); a call that has passed
    the check of line 95, the only kind that fetches, stores or submits,
    has a depth strictly below the maximum. *)
Theorem scheduled_depth_bounded (s : State) :
  reachable W C s ->
  (forall f, f ∈ futures s -> is_Some (pool s !! f))
  /\ forall g t, pool s !! g = Some t ->
       0 <= t_depth t
       /\ (t_depth t = 0 \/ t_depth t <= max_recursion_depth C)
       /\ (past_checks t = true -> t_depth t < max_recursion_depth C).
Proof.
  intros Hr. pose proof (reachable_wf s Hr) as Hwf.
  destruct (reachable_depth s Hr) as [Hseed Hchild Hnn Hchk].
  split.
  - intros f Hf. apply lookup_lt_is_Some_2. by apply (wf_futures _ Hwf).
  - intros g t Hg. split; [by eapply Hnn|]. split; [|by eapply Hchk].
    destruct (t_parent t) as [p|] eqn:Hp.
    + destruct (Hchild _ _ _ Hg Hp) as (_ & tp & _ & Hd & Hmax). right. lia.
    + left. by eapply Hseed.
Qed.

(** C8.  A future submitted by a call is one level below that call, a
    future submitted by [scrape] is at depth 0, and no move changes the
    URL or the depth of a future that exists. *)
Theorem child_depth_succ (s : State) :
  reachable W C s ->
  (forall g t, pool s !! g = Some t ->
     match t_parent t with
     | None => t_depth t = 0
     | Some p =>
         (p < g)%nat
         /\ exists tp, pool s !! p = Some tp /\ t_depth t = t_depth tp + 1
     end)
  /\ (forall a s' g t', step W C a s = Some s' ->
        pool s !! g = None -> pool s' !! g = Some t' ->
        (a = AMain /\ t_depth t' = 0)
        \/ exists f tp, a = AWorker f /\ pool s !! f = Some tp
                        /\ t_depth t' = t_depth tp + 1)
  /\ (forall a s' g t, step W C a s = Some s' -> pool s !! g = Some t ->
        exists t', pool s' !! g = Some t'
                   /\ t_url t' = t_url t /\ t_depth t' = t_depth t).
Proof.
  intros Hr. destruct (reachable_depth s Hr) as [Hseed Hchild _ _].
  split; [|split].
  - intros g t Hg. destruct (t_parent t) as [p|] eqn:Hp.
    + destruct (Hchild _ _ _ Hg Hp) as (Hlt & tp & Htp & Hd & _). eauto.
    + by eapply Hseed.
  - intros a s' g t' Hs Hnone Hg.
    destruct (step_task_origin _ _ _ _ _ Hs Hg)
      as [(t & Ht & _)|(_ & _ & [(-> & _ & Hd)|(f & tp & h & -> & _ & Hf & _ & Hd & _)])].
    + congruence.
    + by left.
    + right. eauto.
  - intros a s' g t Hs Hg.
    destruct (step_task_stable _ _ _ _ _ Hs Hg) as [st Hst].
    exists (set_state st t). done.
Qed.


(** C4.  A call that found RUNNING set goes on to the check of line 95; if
    there its depth is not below the maximum or its URL is a key of the
    store, its next move is its last: no request, the store, the pool of
    futures and the queue as they were, the skip message printed, and the
    future resolved to the marker of its URL and depth. *)
Theorem skip_without_fetch (s : State) (f : nat) (t : Task) :
  pool s !! f = Some t ->
  (t_state t = Running PcRunning -> RUNNING s = true ->
   step W C (AWorker f) s = Some (goto f t (Running PcVisited) s))
  /\ (t_state t = Running PcVisited ->
      max_recursion_depth C <= t_depth t
      \/ PyDict.contains (t_url t) (data s) = true ->
      exists s', step W C (AWorker f) s = Some s'
        /\ fetched s' = fetched s /\ data s' = data s
        /\ futures s' = futures s /\ main s' = main s
        /\ length (pool s') = length (pool s)
        /\ pool s' !! f
           = Some (set_state (Finished (marker (t_url t) (t_depth t))) t)
        /\ (forall g, g <> f -> pool s' !! g = pool s !! g)
        /\ stdout s' = stdout s ++ [msg_skip]).
Proof.
  intros Hf. pose proof (lookup_lt_Some _ _ _ Hf) as Hlt. split.
  - intros Hst Hrun. simpl. unfold worker_step. rewrite Hf, Hst. simpl.
    by rewrite Hrun.
  - intros Hst Hskip. eexists. split.
    { simpl. unfold worker_step. rewrite Hf, Hst. simpl.
      replace (negb (PyDict.contains (t_url t) (data s))
               && (t_depth t <? max_recursion_depth C)%Z) with false;
        [done|].
      destruct Hskip as [Hd | ->]; [|done].
      destruct (Z.ltb_spec (t_depth t) (max_recursion_depth C)); [lia|].
      by rewrite andb_false_r. }
    simpl. rewrite length_insert. repeat split; try done.
    + by apply list_lookup_insert_eq.
    + intros g Hne. by apply list_lookup_insert_ne.
Qed.

(** C7.  Once RUNNING is false it stays false; a signal makes it false; a
    call that reads it then makes one last move without a request, a store
    or a submit and resolves to its marker; a call that is past line 91
    moves exactly as it would have with the flag still set, and one that
    holds a response still stores it. *)
Theorem cancellation_is_cooperative (s : State) (f : nat) (t : Task) :
  pool s !! f = Some t ->
  (forall a s', step W C a s = Some s' ->
     RUNNING s = false -> RUNNING s' = false)
  /\ (forall s', step W C ASignal s = Some s' -> RUNNING s' = false)
  /\ (t_state t = Running PcRunning -> RUNNING s = false ->
      exists s', step W C (AWorker f) s = Some s'
        /\ fetched s' = fetched s /\ data s' = data s
        /\ futures s' = futures s
        /\ length (pool s') = length (pool s)
        /\ pool s' !! f
           = Some (set_state (Finished (marker (t_url t) (t_depth t))) t)
        /\ forall g, g <> f -> pool s' !! g = pool s !! g)
  /\ (forall pc, t_state t = Running pc -> pc <> PcRunning ->
      step W C (AWorker f) (set_RUNNING false s)
      = option_map (set_RUNNING false) (step W C (AWorker f) s))
  /\ (forall text, t_state t = Running (PcStore text) ->
      exists s', step W C (AWorker f) (set_RUNNING false s) = Some s'
        /\ PyDict.get (t_url t) (data s') = Some (page_of W text)).
Proof.
  intros Hf. pose proof (lookup_lt_Some _ _ _ Hf) as Hlt.
  split; [|split; [|split; [|split]]].
  - intros a s' H Hrun. step_inv H; simpl; try done.
    all: congruence.
  - intros s' H. simpl in H. destruct (exited (main s)); by simplify_eq.
  - intros Hst Hrun. eexists. split.
    { simpl. unfold worker_step. rewrite Hf, Hst. simpl. by rewrite Hrun. }
    simpl. rewrite length_insert. repeat split; try done.
    + by apply list_lookup_insert_eq.
    + intros g Hne. by apply list_lookup_insert_ne.
  - intros pc Hst Hpc. simpl. unfold worker_step. simpl. rewrite Hf, Hst.
    simpl. destruct pc as [| | |text|[|h hs]|g hs]; simpl; try done.
    all: repeat case_match; done.
  - intros text Hst. eexists. split.
    { simpl. unfold worker_step. simpl. by rewrite Hf, Hst. }
    simpl. by rewrite get_setitem, String.eqb_refl.
Qed.

Lemma marker_step (a : Action) (s s' : State) :
  resolved_to_marker s -> step W C a s = Some s' -> resolved_to_marker s'.
Proof.
  intros Hm H g t' r Hg Hfin. step_inv H; pool_inv.
  all: try (by eapply Hm).
  all: try discriminate.
  all: by injection Hfin as <-.
Qed.



Lemma reachable_no_seed (s : State) :
  start_urls C = [] -> reachable W C s -> no_seed_inv s.
Proof.
  intros He. revert s. apply reachable_ind; [by apply no_seed_init|].
  intros a s0 s1 Hi Hs. by eapply no_seed_step.
Qed.





(** C10, as amended.  With no start URL no request is ever made and no
    future is ever submitted; the first check of the drain loop finds the
    queue empty; the third move of [scrape] hands the serialization of the
    empty mapping to the sink; [scrape] returns with that text in the
    sink, unless writing the output file raises, which is the only error
    that can leave it. *)
Theorem empty_start_urls :
  start_urls C = [] ->
  (forall s, reachable W C s -> fetched s = [] /\ pool s = [] /\ data s = [])
  /\ (exists s1 s2,
        step W C AMain (init C) = Some s1 /\ main s1 = MDrain
        /\ step W C AMain s1 = Some s2 /\ main s2 = MDump
        /\ step W C AMain s2 = Some (write_output W C "{}" s2))
  /\ (forall s, reachable W C s -> main s = MReturned ->
        emitted C s = Some "{}")
  /\ (forall s e, reachable W C s -> main s = MRaised e ->
        String.eqb (output C) "stdout" = false
        /\ open_w W (output C) = Some e).
Proof.
  intros He. split; [|split; [|split]].
  - intros s Hr. by destruct (reachable_no_seed s He Hr).
  - exists (set_main MDrain (init C)), (set_main MDump (init C)).
    simpl. unfold main_step. simpl. rewrite He. done.
  - intros s Hr Hm. destruct (reachable_output s Hr) as [Hret _].
    destruct (Hret Hm) as [Hem _].
    destruct (reachable_no_seed s He Hr) as [_ _ Hd _ _ _].
    by rewrite Hd in Hem.
  - intros s e Hr Hm. destruct (reachable_output s Hr) as [_ Hra].
    by apply Hra.
Qed.

(** * More of the code *)

(** ** One call of [__scrape], left to run on its own *)






(** ** A future resolves once *)

Lemma finished_step (a : Action) (s s' : State) (f : nat) (t : Task) :
  step W C a s = Some s' -> pool s !! f = Some t -> finished t = true ->
  pool s' !! f = Some t.
Proof.
  intros H Hf Hfin. unfold finished in Hfin. step_inv H; simpl.
  all: try assumption.
  all: try (by apply lookup_app_l_Some).
  all: rewrite list_lookup_insert_ne;
    [ first [ assumption | by apply lookup_app_l_Some ] |].
  all: intros ->; simplify_eq.
  all: first [ congruence
             | match goal with
               | H : t_state _ = _ |- _ => rewrite H in Hfin
               end; discriminate ].
Qed.

(** X2.  The result of a future that has resolved never changes, and the
    future never runs again, whatever happens afterwards. *)
Theorem future_resolves_once (acts : list Action) (s s' : State) (f : nat)
    (t : Task) (r : string) :
  run W C acts s = Some s' -> pool s !! f = Some t ->
  t_state t = Finished r ->
  pool s' !! f = Some t /\ step W C (AWorker f) s' = None.
Proof.
  intros Hrun Hf Hst.
  assert (Hkeep : pool s' !! f = Some t).
  { revert s Hrun Hf. induction acts as [|a acts IH]; intros s Hrun Hf;
      simpl in Hrun; [by simplify_eq|].
    destruct (step W C a s) as [s1|] eqn:Hs; [|done].
    apply (IH s1 Hrun). eapply finished_step; eauto.
    unfold finished. by rewrite Hst. }
  split; [done|]. simpl. unfold worker_step. by rewrite Hkeep, Hst.
Qed.

(** ** The worker threads *)

Lemma busy_workers_app (p q : list Task) :
  busy_workers (p ++ q) = (busy_workers p + busy_workers q)%nat.
Proof. induction p as [|t p IH]; simpl; [done|]. rewrite IH. lia. Qed.

Lemma busy_workers_insert (p : list Task) (f : nat) (t t' : Task) :
  p !! f = Some t ->
  (busy_workers (<[f:=t']> p) + (if is_running t then 1 else 0)
   = busy_workers p + (if is_running t' then 1 else 0))%nat.
Proof.
  revert f. induction p as [|t0 p IH]; intros [|f] Hf; simplify_eq/=.
  - lia.
  - specialize (IH _ Hf). lia.
Qed.

Lemma busy_le_max (s : State) :
  reachable W C s ->
  Z.of_nat (busy_workers (pool s)) <= Z.max 0 (max_workers C).
Proof.
  revert s. apply reachable_ind; [simpl; lia|].
  intros a s s' IH H.
  assert (Hfree : a = AStart ->
            Z.of_nat (busy_workers (pool s)) < max_workers C).
  { intros ->. simpl in H. unfold start_step in H.
    destruct (Z.ltb_spec (Z.of_nat (busy_workers (pool s))) (max_workers C));
      [done|discriminate]. }
  step_inv H; simpl; try assumption.
  all: rewrite ?insert_app_l by (by eapply lookup_lt_Some).
  all: rewrite ?busy_workers_app; simpl.
  all: try lia.
  all: match goal with
       | Hf : pool _ !! ?f0 = Some ?t0
         |- context [busy_workers (<[?f0:=?t1]> _)] =>
           pose proof (busy_workers_insert _ _ _ t1 Hf) as Hb;
           unfold is_running in Hb; simpl in Hb
       end.
  all: repeat match goal with
       | H : t_state _ = _ |- _ => rewrite H in Hb
       end.
  all: try lia.
  specialize (Hfree eq_refl). lia.
Qed.


(** ** A maximum depth of zero or less *)

(** X4.  With a maximum recursion depth of zero or less no request is ever
    made and nothing is ever stored: every call ends at the check of
    line 95, and what [scrape] returns with is the serialization of the
    empty mapping. *)
Theorem no_depth_no_request (s : State) :
  max_recursion_depth C <= 0 -> reachable W C s ->
  fetched s = [] /\ data s = []
  /\ (main s = MReturned -> emitted C s = Some "{}").
Proof.
  intros Hmax Hr.
  assert (Hno : fetched s = [] /\ data s = []).
  { enough (reachable W C s /\ fetched s = [] /\ data s = []) by tauto.
    revert s Hr.
    apply (reachable_ind
             (fun s => reachable W C s /\ fetched s = [] /\ data s = [])).
    { split; [exact reachable_init|done]. }
    intros a s s' (Hr & Hf & Hd) H.
    split; [by eapply reachable_step|].
    destruct (reachable_depth s Hr) as [_ _ Hnn Hchk].
    step_inv H; simpl; try done.
    all: match goal with
         | Hp : pool _ !! _ = Some ?t0, Hs : t_state ?t0 = Running _ |- _ =>
             pose proof (Hnn _ _ Hp);
             pose proof (Hchk _ _ Hp) as Hc;
             unfold past_checks in Hc; rewrite Hs in Hc;
             specialize (Hc eq_refl); lia
         end. }
  destruct Hno as [Hf Hd]. split; [done|]. split; [done|].
  intros Hm. destruct (reachable_output s Hr) as [Hret _].
  destruct (Hret Hm) as [He _]. by rewrite Hd in He.
Qed.

(** ** Ctrl+C before any call is past line 91 *)

Lemma cancelled_step (a : Action) (s s' : State) :
  RUNNING s = false ->
  (forall f t, pool s !! f = Some t -> checking t = false) ->
  step W C a s = Some s' ->
  RUNNING s' = false
  /\ (forall f t, pool s' !! f = Some t -> checking t = false)
  /\ fetched s' = fetched s.
Proof.
  intros Hrun Hchk H. step_inv H.
  all: try (match goal with
            | Hp : pool _ !! _ = Some ?t0, Hs : t_state ?t0 = Running _
              |- _ =>
                pose proof (Hchk _ _ Hp) as Hc;
                unfold checking in Hc; rewrite Hs in Hc; discriminate
            end).
  all: try congruence.
  all: split; [done|]; split; [|done].
  all: intros f' t' Hf'; pool_inv; try (by eapply Hchk); done.
Qed.

(** X5.  If RUNNING is false and no call stands between its reading of
    RUNNING and its request, no request is made any more, whatever the
    schedule: calls that start afterwards return at line 91, and calls that
    already hold a response only store it and submit its links. *)
Theorem cancel_stops_requests (acts : list Action) (s s' : State) :
  RUNNING s = false ->
  (forall f t, pool s !! f = Some t -> checking t = false) ->
  run W C acts s = Some s' ->
  fetched s' = fetched s /\ RUNNING s' = false.
Proof.
  revert s. induction acts as [|a acts IH]; intros s Hrun Hchk H;
    simpl in H; [by simplify_eq|].
  destruct (step W C a s) as [s1|] eqn:Hs; [|done].
  destruct (cancelled_step _ _ _ Hrun Hchk Hs) as (Hrun1 & Hchk1 & Hf1).
  destruct (IH s1 Hrun1 Hchk1 H) as [Hf Hr]. split; congruence.
Qed.

(** ** The start URLs *)

Lemma root_urls_app (p q : list Task) :
  root_urls (p ++ q) = root_urls p ++ root_urls q.
Proof.
  induction p as [|t p IH]; simpl; [done|].
  destruct (t_depth t =? 0)%Z; simpl; by rewrite IH.
Qed.

Lemma root_urls_insert (p : list Task) (f : nat) (t : Task)
    (st : FutureState) :
  p !! f = Some t -> root_urls (<[f:=set_state st t]> p) = root_urls p.
Proof.
  revert f. induction p as [|t0 p IH]; intros [|f] Hf; simplify_eq/=;
    [done|]. by rewrite (IH _ Hf).
Qed.

(** X6.  [scrape] submits every start URL once, at depth 0 and in the order
    of the list, and nothing else is ever submitted at depth 0: the URLs of
    the futures at depth 0, followed by the start URLs still to submit,
    are the list of start URLs. *)
Theorem seeds_submitted_in_order (s : State) :
  reachable W C s ->
  root_urls (pool s) ++ seeds_left (main s) = start_urls C.
Proof.
  intros Hr.
  enough (reachable W C s
          /\ root_urls (pool s) ++ seeds_left (main s) = start_urls C)
    by tauto.
  revert s Hr.
  apply (reachable_ind
           (fun s => reachable W C s
              /\ root_urls (pool s) ++ seeds_left (main s) = start_urls C)).
  { split; [exact reachable_init|done]. }
  intros a s s' (Hr & IH) H.
  split; [by eapply reachable_step|].
  destruct (reachable_depth s Hr) as [_ _ Hnn _].
  step_inv H; simpl.
  all: repeat match goal with
       | H : main _ = _ |- _ => rewrite H in IH; simpl in IH
       end.
  all: rewrite ?insert_app_l by (by eapply lookup_lt_Some).
  all: rewrite ?root_urls_app; simpl.
  all: try (erewrite root_urls_insert by eassumption).
  all: try (by rewrite <- ?app_assoc).
  match goal with
  | Hp : pool _ !! _ = Some ?t0 |- _ => pose proof (Hnn _ _ Hp)
  end.
  destruct (Z.eqb_spec (t_depth t + 1) 0); [lia|].
  by rewrite app_nil_r.
Qed.

(** ** Requests and the store *)

Lemma step_fetched (a : Action) (s s' : State) :
  step W C a s = Some s' ->
  fetched s' = fetched s
  \/ exists f t, pool s !! f = Some t /\ t_state t = Running PcGet
        /\ fetched s' = fetched s ++ [t_url t]
        /\ forall text, requests_get W (t_url t) = Response true text ->
             pool s' !! f = Some (set_state (Running (PcStore text)) t).
Proof.
  intros H. step_inv H; simpl; try (by left).
  all: right; eexists _, _; split; [eassumption|]; split; [done|];
    split; [done|].
  all: intros text' Hreq; try congruence.
  assert (text' = text) as -> by congruence.
  apply list_lookup_insert_eq. by eapply lookup_lt_Some.
Qed.

Lemma step_store_pc (a : Action) (s s' : State) (f : nat) (t : Task)
    (text : string) :
  step W C a s = Some s' -> pool s !! f = Some t ->
  t_state t = Running (PcStore text) ->
  pool s' !! f = Some t
  \/ data s' = PyDict.setitem (t_url t) (page_of W text) (data s).
Proof.
  intros H Hf Hst. step_inv H; simpl.
  all: try (left; first [ assumption | by apply lookup_app_l_Some ]).
  all: match goal with
       | Hp : pool _ !! ?f0 = Some _ |- _ =>
           destruct (decide (f = f0)) as [->|Hne]
       end.
  all: try (left; rewrite list_lookup_insert_ne by done;
            first [ assumption | by apply lookup_app_l_Some ]).
  all: simplify_eq.
  all: try congruence.
  match goal with
  | H1 : t_state ?t0 = Running (PcStore ?x),
    H2 : t_state ?t0 = Running (PcStore ?y) |- _ =>
      assert (x = y) as -> by congruence
  end.
  by right.
Qed.

Lemma step_new_store_pc (a : Action) (s s' : State) (f : nat) (t' : Task)
    (text : string) :
  step W C a s = Some s' -> pool s' !! f = Some t' ->
  t_state t' = Running (PcStore text) ->
  pool s !! f = Some t' \/ t_url t' ∈ fetched s'.
Proof.
  intros H Hf Hst. step_inv H; pool_inv.
  all: try (by left).
  all: try discriminate.
  right. apply elem_of_app. right. by apply list_elem_of_singleton.
Qed.

Lemma fetched_mono (a : Action) (s s' : State) (u : string) :
  step W C a s = Some s' -> u ∈ fetched s -> u ∈ fetched s'.
Proof.
  intros H Hu.
  destruct (step_fetched _ _ _ H) as [->|(f & t & _ & _ & -> & _)]; [done|].
  apply elem_of_app. by left.
Qed.

Lemma fetch_step (a : Action) (s s' : State) :
  store_ok W s -> fetch_inv W s -> step W C a s = Some s' -> fetch_inv W s'.
Proof.
  intros [_ _ Hso] [Hk Hpc Hok] H. split.
  - intros u Hu.
    destruct (step_data _ _ _ H) as [Hd|(f & t & text & _ & Hf & Hst & Hd)];
      rewrite Hd in Hu.
    + eapply fetched_mono; eauto.
    + eapply fetched_mono; [done|].
      apply keys_setitem in Hu as [->|Hu]; [by eapply Hpc | by apply Hk].
  - intros f t' text Hf Hst.
    destruct (step_new_store_pc _ _ _ _ _ _ H Hf Hst) as [Hold|?]; [|done].
    eapply fetched_mono; [done|]. by eapply Hpc.
  - intros u text Hu Hreq.
    assert (Hcase : u ∈ fetched s
              \/ exists f t, t_url t = u
                   /\ pool s' !! f
                      = Some (set_state (Running (PcStore text)) t)).
    { destruct (step_fetched _ _ _ H)
        as [Hf|(f & t & Hp & Hst & Hf & Hnew)]; rewrite Hf in Hu; [by left|].
      apply elem_of_app in Hu as [Hu|Hu]; [by left|].
      apply list_elem_of_singleton in Hu as ->.
      right. eauto. }
    destruct Hcase as [Hold|(f & t & <- & Hf)];
      [|right; by exists f, (set_state (Running (PcStore text)) t)].
    assert (Hkeep : PyDict.get u (data s) = Some (page_of W text) ->
                    PyDict.get u (data s') = Some (page_of W text)).
    { intros Hg.
      destruct (step_data _ _ _ H)
        as [->|(f & t & text' & _ & Hf & Hst & ->)]; [done|].
      rewrite get_setitem.
      destruct (String.eqb_spec u (t_url t)) as [->|]; [|done].
      rewrite (Hso _ _ _ Hf Hst) in Hreq. by injection Hreq as ->. }
    destruct (Hok _ _ Hold Hreq) as [Hg|(f & t & Hf & <- & Hst)];
      [left; by apply Hkeep|].
    destruct (step_store_pc _ _ _ _ _ _ H Hf Hst) as [Hsame| ->].
    + right. eauto.
    + left. by rewrite get_setitem, String.eqb_refl.
Qed.

Lemma fetch_init : fetch_inv W (init C).
Proof.
  split; simpl.
  - intros u Hu. by apply elem_of_nil in Hu.
  - intros [|f] *; done.
  - intros u text Hu. by apply elem_of_nil in Hu.
Qed.

Lemma reachable_fetch (s : State) : reachable W C s -> fetch_inv W s.
Proof.
  intros Hr. enough (store_ok W s /\ fetch_inv W s) by tauto.
  revert s Hr. apply (reachable_ind (fun s => store_ok W s /\ fetch_inv W s)).
  - split; [exact store_init | exact fetch_init].
  - intros a s s' [Hs Hf] H.
    split; [by eapply store_step | by eapply fetch_step].
Qed.

(** X7.  Every key of the store is a URL that was requested; and once the
    drain loop is left, every requested URL that answers [ok] is a key of
    the store, with the value built from its page: no result is lost. *)
Theorem results_complete (s : State) :
  reachable W C s ->
  (forall u, u ∈ PyDict.keys (data s) -> u ∈ fetched s)
  /\ (drained (main s) = true ->
      forall u text,
        u ∈ fetched s -> requests_get W u = Response true text ->
        PyDict.get u (data s) = Some (page_of W text)).
Proof.
  intros Hr. destruct (reachable_fetch s Hr) as [Hk _ Hok].
  split; [done|]. intros Hdr u text Hu Hreq.
  destruct (Hok _ _ Hu Hreq) as [?|(f & t & Hf & _ & Hst)]; [done|].
  pose proof (reachable_drained_finished s f t Hr Hdr Hf) as Hfin.
  unfold finished in Hfin. by rewrite Hst in Hfin.
Qed.

(** ** What the drain loop prints *)

Lemma stdout_mono (a : Action) (s s' : State) (x : string) :
  step W C a s = Some s' -> x ∈ stdout s -> x ∈ stdout s'.
Proof.
  intros H Hx. step_inv H; simpl; try assumption.
  all: apply elem_of_app; left; try assumption.
  all: apply elem_of_app; by left.
Qed.

Lemma tracked_step (a : Action) (s s' : State) (g : nat) :
  step W C a s = Some s' -> tracked s g ->
  tracked s' g
  \/ exists t r, pool s !! g = Some t /\ t_state t = Finished r
                 /\ r ∈ stdout s'.
Proof.
  intros H Htr. step_inv H.
  all: destruct Htr as [Hin|[Hmain|(p & tp & Hp & Hc)]].
  all: unfold tracked; simpl.
  all: repeat match goal with
       | H : main _ = _ |- _ => rewrite H in *; simpl in *
       | H : futures _ = _ |- _ => rewrite H in *; simpl in *
       end.
  all: try discriminate.
  all: try (left; left; rewrite ?elem_of_app, ?list_elem_of_singleton;
            auto; fail).
  all: try (left; right; left; congruence).
  all: try (left; right; right; exists p, tp; split; [|done];
            first [ assumption | by apply lookup_app_l_Some ]).
  all: try (left; right; right; exists p, tp; split; [|done];
            rewrite list_lookup_insert_ne;
            [ first [ assumption | by apply lookup_app_l_Some ] |];
            intros ->; simplify_eq;
            match goal with
            | H : t_state _ = _ |- _ => rewrite H in Hc
            end; discriminate).
  all: try (injection Hmain as <-).
  all: try (left; left; rewrite ?elem_of_app, ?list_elem_of_singleton;
            auto; fail).
  - apply elem_of_cons in Hin as [->|Hin]; left; auto.
  - right. eexists _, _. split; [eassumption|]. split; [eassumption|].
    apply elem_of_app. right. by apply list_elem_of_singleton.
  - left. destruct (decide (p = f)) as [->|Hne].
    + simplify_eq. rewrite Hst in Hc. simpl in Hc. injection Hc as ->.
      left. apply elem_of_app. right. by apply list_elem_of_singleton.
    + right. right. exists p, tp. split; [|done].
      by rewrite list_lookup_insert_ne.
Qed.

Lemma new_tracked (a : Action) (s s' : State) (g : nat) (t' : Task) :
  step W C a s = Some s' -> pool s !! g = None -> pool s' !! g = Some t' ->
  tracked s' g.
Proof.
  intros H Hnone Hg. step_inv H; pool_inv; try congruence.
  - right. by left.
  - right. right.
    exists f, (set_state (Running (PcPut (length (pool s)) hs)) t).
    split; [|done]. simpl.
    apply list_lookup_insert_eq. rewrite length_app.
    apply lookup_lt_Some in Hf. lia.
Qed.

Lemma printed_step (a : Action) (s s' : State) :
  resolved_to_marker s -> printed_or_tracked s ->
  step W C a s = Some s' -> printed_or_tracked s'.
Proof.
  intros Hmk Hpt H g t' Hg.
  destruct (pool s !! g) as [t|] eqn:Hold;
    [|left; by eapply new_tracked].
  destruct (step_task_stable _ _ _ _ _ H Hold) as [st Hst].
  assert (t' = set_state st t) as -> by congruence. simpl.
  destruct (Hpt _ _ Hold) as [Htr|Hpr];
    [|right; by eapply stdout_mono].
  destruct (tracked_step _ _ _ _ H Htr) as [?|(t0 & r & Ht0 & Hfin & Hin)];
    [by left|].
  right. assert (t0 = t) as -> by congruence.
  by rewrite <- (Hmk _ _ _ Hold Hfin).
Qed.

Lemma reachable_printed (s : State) :
  reachable W C s -> printed_or_tracked s.
Proof.
  intros Hr. enough (resolved_to_marker s /\ printed_or_tracked s) by tauto.
  revert s Hr.
  apply (reachable_ind
           (fun s => resolved_to_marker s /\ printed_or_tracked s)).
  - split; by intros [|g].
  - intros a s s' [Hm Hp] H.
    split; [by eapply marker_step | by eapply printed_step].
Qed.

(** X8.  When the drain loop is left, the marker of every future that was
    ever submitted, by [scrape] or by a call, has been printed: the loop
    waits for the futures that calls add to the queue while it runs. *)
Theorem drain_prints_every_marker (s : State) (f : nat) (t : Task) :
  reachable W C s -> drained (main s) = true -> pool s !! f = Some t ->
  marker (t_url t) (t_depth t) ∈ stdout s.
Proof.
  intros Hr Hdr Hf.
  destruct (reachable_printed s Hr _ _ Hf) as [Htr|?]; [exfalso|done].
  destruct (reachable_drain s Hr) as [_ Hd].
  destruct Htr as [Hin|[Hm|(p & tp & Hp & Hc)]].
  - rewrite (dr_empty _ Hd Hdr) in Hin. by apply elem_of_nil in Hin.
  - by rewrite (drained_holds_none _ Hdr) in Hm.
  - pose proof (reachable_drained_finished s p tp Hr Hdr Hp) as Hfin.
    unfold finished in Hfin. by destruct (t_state tp) as [|[]|].
Qed.

(** ** Where the requested URLs come from *)






(** ** One worker *)

Lemma two_running (p : list Task) (f g : nat) (t t' : Task) :
  p !! f = Some t -> p !! g = Some t' -> f <> g ->
  is_running t = true -> is_running t' = true ->
  (2 <= busy_workers p)%nat.
Proof.
  revert f g. induction p as [|t0 p IH]; intros f g Hf Hg Hne Hr Hr';
    [done|].
  destruct f as [|f], g as [|g]; simplify_eq/=.
  - rewrite Hr.
    enough (1 <= busy_workers p)%nat by lia.
    clear -Hg Hr'. revert g Hg.
    induction p as [|t1 p IH]; intros [|g] Hg; simplify_eq/=.
    + rewrite Hr'. lia.
    + specialize (IH _ Hg). lia.
  - rewrite Hr'.
    enough (1 <= busy_workers p)%nat by lia.
    clear -Hf Hr. revert f Hf.
    induction p as [|t1 p IH]; intros [|f] Hf; simplify_eq/=.
    + rewrite Hr. lia.
    + specialize (IH _ Hf). lia.
  - assert (f <> g) by congruence.
    specialize (IH _ _ Hf Hg ltac:(done) Hr Hr'). lia.
Qed.

Lemma get_contains (d : PyDict.dict PageData) (u : string) (p : PageData) :
  PyDict.get u d = Some p -> PyDict.contains u d = true.
Proof.
  induction d as [|[k v] d IH]; simpl; [done|].
  destruct (String.eqb u k); [done|apply IH].
Qed.

Lemma single_get_is_new (a : Action) (s s' : State) :
  max_workers C <= 1 -> reachable W C s -> get_is_new s ->
  step W C a s = Some s' -> get_is_new s'.
Proof.
  intros Hone Hr Hnew H.
  pose proof (busy_le_max s Hr) as Hbusy.
  assert (Hsolo : forall f g t t',
            pool s !! f = Some t -> pool s !! g = Some t' ->
            is_running t = true -> is_running t' = true -> f = g).
  { intros f g t t' Hf Hg Ht Ht'. destruct (decide (f = g)); [done|].
    pose proof (two_running _ _ _ _ _ Hf Hg ltac:(done) Ht Ht'). lia. }
  step_inv H; intros f' t' Hp Hst'; pool_inv.
  all: try discriminate.
  all: try (by eapply Hnew).
  - match goal with
    | H : _ && _ = true |- _ =>
        apply andb_true_iff in H; destruct H as [H _];
        by apply negb_true_iff in H
    end.
  - exfalso.
    match goal with
    | Hne : _ <> _ |- _ => apply Hne
    end.
    eapply Hsolo; try eassumption.
    + unfold is_running. by rewrite Hst.
    + unfold is_running. by rewrite Hst'.
Qed.

Lemma single_requested_once (a : Action) (s s' : State) :
  max_workers C <= 1 -> reachable W C s -> get_is_new s ->
  requested_once W s -> step W C a s = Some s' -> requested_once W s'.
Proof.
  intros Hone Hr Hnew Honce H. unfold requested_once in *.
  destruct (step_fetched _ _ _ H) as [->|(f & t & Hf & Hst & -> & _)];
    [done|].
  pose proof (busy_le_max s Hr) as Hbusy.
  assert (Hfresh : answers W (t_url t) = true -> t_url t ∉ fetched s).
  { intros Hans Hin. unfold answers in Hans.
    destruct (requests_get W (t_url t)) as [|[|] text] eqn:Hreq;
      try discriminate.
    destruct (fi_ok _ _ (reachable_fetch s Hr) _ _ Hin Hreq)
      as [Hg|(g & t' & Hg & Hu & Hst')].
    - apply get_contains in Hg. by rewrite (Hnew _ _ Hf Hst) in Hg.
    - destruct (decide (f = g)) as [->|Hne]; [congruence|].
      assert (2 <= busy_workers (pool s))%nat; [|lia].
      eapply (two_running _ f g); try eassumption.
      + unfold is_running. by rewrite Hst.
      + unfold is_running. by rewrite Hst'. }
  intros i j u Hi Hj Hans.
  apply lookup_snoc_Some in Hi as [[Hli Hi]|[-> <-]];
    apply lookup_snoc_Some in Hj as [[Hlj Hj]|[-> Heq]].
  - by eapply Honce.
  - subst u. destruct (Hfresh Hans). apply list_elem_of_lookup. eauto.
  - destruct (Hfresh Hans). apply list_elem_of_lookup. eauto.
  - done.
Qed.

(** X10.  With a single worker no URL that answers [ok] is requested
    twice: a call tests the store, makes its request and stores the page
    before the next call starts, so the test of line 95 never misses a
    page. *)
Theorem single_worker_requests_once (s : State) :
  max_workers C <= 1 -> reachable W C s ->
  forall i j u,
    fetched s !! i = Some u -> fetched s !! j = Some u ->
    answers W u = true -> i = j.
Proof.
  intros Hone Hr.
  enough (reachable W C s /\ get_is_new s /\ requested_once W s)
    as (_ & _ & Ho) by exact Ho.
  revert s Hr.
  apply (reachable_ind
           (fun s => reachable W C s /\ get_is_new s
                     /\ requested_once W s)).
  - split; [exact reachable_init|]. split.
    + by intros [|f].
    + by intros [|i].
  - intros a s s' (Hr & Hn & Ho) H.
    split; [by eapply reachable_step|].
    split; [by eapply single_get_is_new | by eapply single_requested_once].
Qed.

(** ** How far the crawl goes *)





(** ** One request per future *)

(** X14.  A call makes at most one request: in every reachable state the
    number of requests made so far, plus the number of futures that may
    still make theirs, is at most the number of futures submitted. *)
Theorem one_request_per_future (s : State) :
  reachable W C s ->
  (length (fetched s) + sum_list_with may_request (pool s)
   <= length (pool s))%nat.
Proof.
  revert s. apply reachable_ind; [simpl; lia|].
  intros a s s' IH H. step_inv H; simpl; try assumption.
  all: rewrite ?insert_app_l by (by eapply lookup_lt_Some).
  all: rewrite ?length_app, ?sum_list_with_app, ?length_insert; simpl.
  all: try (unfold may_request at 2; simpl).
  all: try lia.
  all: match goal with
       | Hf : pool _ !! ?f0 = Some ?t0
         |- context [sum_list_with may_request (<[?f0:=?t1]> _)] =>
           pose proof (sum_list_with_insert may_request _ _ _ t1 Hf) as Hb;
           unfold may_request in Hb at 2 4; simpl in Hb
       end.
  all: repeat match goal with
       | H : t_state _ = _ |- _ => rewrite H in Hb
       end.
  all: lia.
Qed.

(** ** Each future is queued once *)

Lemma put_pending_insert_same (p : list Task) (f : nat) (t : Task)
    (st : FutureState) :
  p !! f = Some t -> pc_child (t_state t) = pc_child st ->
  put_pending (<[f:=set_state st t]> p) = put_pending p.
Proof.
  unfold put_pending. revert f.
  induction p as [|t0 p IH]; intros [|f] Hf Hc; simplify_eq/=.
  - by rewrite ?Hc.
  - by rewrite (IH _ Hf Hc).
Qed.

Lemma put_pending_insert_add (p : list Task) (f : nat) (t : Task)
    (st : FutureState) (g : nat) :
  p !! f = Some t -> pc_child (t_state t) = None -> pc_child st = Some g ->
  put_pending (<[f:=set_state st t]> p) ≡ₚ g :: put_pending p.
Proof.
  unfold put_pending. revert f.
  induction p as [|t0 p IH]; intros [|f] Hf Hn Hc; simplify_eq/=.
  - by rewrite ?Hn, ?Hc.
  - specialize (IH _ Hf Hn Hc).
    destruct (pc_child (t_state t0)); [|done].
    rewrite IH. apply Permutation_swap.
Qed.

Lemma put_pending_insert_del (p : list Task) (f : nat) (t : Task)
    (st : FutureState) (g : nat) :
  p !! f = Some t -> pc_child (t_state t) = Some g -> pc_child st = None ->
  put_pending p ≡ₚ g :: put_pending (<[f:=set_state st t]> p).
Proof.
  unfold put_pending. revert f.
  induction p as [|t0 p IH]; intros [|f] Hf Hn Hc; simplify_eq/=.
  - by rewrite ?Hn, ?Hc.
  - specialize (IH _ Hf Hn Hc).
    destruct (pc_child (t_state t0)); [|done].
    rewrite IH. apply Permutation_swap.
Qed.

Lemma put_pending_snoc (p : list Task) (t : Task) :
  pc_child (t_state t) = None -> put_pending (p ++ [t]) = put_pending p.
Proof.
  intros Hn. unfold put_pending. rewrite omap_app. simpl. rewrite Hn.
  by rewrite app_nil_r.
Qed.

Lemma live_bounded (s : State) (x : nat) :
  wf s -> x ∈ live s -> (x < length (pool s))%nat.
Proof.
  intros [Hq Hm Hp]. unfold live, held.
  intros [Hx|[Hx|Hx]%elem_of_app]%elem_of_app.
  - by apply Hq.
  - destruct (main_holds (main s)) as [f|] eqn:Hh.
    + apply list_elem_of_singleton in Hx as ->. by apply Hm.
    + by apply elem_of_nil in Hx.
  - apply list_elem_of_omap in Hx as (t & Hin & Hc).
    apply list_elem_of_lookup in Hin as [i Hi].
    by destruct (Hp _ _ _ Hi Hc).
Qed.

Lemma live_step (a : Action) (s s' : State) :
  wf s -> NoDup (live s) -> step W C a s = Some s' -> NoDup (live s').
Proof.
  intros Hwf Hnd H.
  assert (Hfresh : NoDup (length (pool s) :: live s)).
  { apply NoDup_cons. split; [|done]. intros Hin.
    pose proof (live_bounded _ _ Hwf Hin). lia. }
  unfold live in *. step_inv H; simpl.
  all: repeat match goal with
       | H : main _ = _ |- _ => rewrite H in *; simpl in *
       | H : futures _ = _ |- _ => rewrite H in *; simpl in *
       end.
  all: unfold held in *; simpl in *.
  all: rewrite ?insert_app_l by (by eapply lookup_lt_Some).
  all: rewrite ?put_pending_snoc by done.
  all: try (erewrite put_pending_insert_same;
            [| eassumption
             | match goal with
               | H : t_state _ = _ |- _ => by rewrite H
               end ]).
  all: try assumption.
  - by rewrite <- Permutation_middle.
  - by rewrite <- app_assoc.
  - by rewrite <- Permutation_middle.
  - rewrite <- Permutation_middle in Hnd. by apply NoDup_cons in Hnd as [_ ?].
  - rewrite (put_pending_insert_add _ _ _ _ (length (pool s)) Hf);
      [|by rewrite Hst|done].
    by rewrite <- !Permutation_middle.
  - rewrite (put_pending_insert_del _ _ _ (Running (PcLinks hs)) g Hf) in Hnd;
      [|by rewrite Hst|done].
    rewrite <- !Permutation_middle in Hnd.
    rewrite <- app_assoc. simpl. by rewrite <- Permutation_middle.
Qed.

Lemma reachable_live (s : State) : reachable W C s -> NoDup (live s).
Proof.
  intros Hr. enough (wf s /\ NoDup (live s)) by tauto.
  revert s Hr. apply (reachable_ind (fun s => wf s /\ NoDup (live s))).
  - split; [exact (reachable_wf _ (ex_intro _ [] eq_refl))|].
    unfold live. simpl. constructor.
  - intros a s s' [Hwf Hnd] H. split.
    + by eapply wf_step.
    + by eapply live_step.
Qed.

(** X16.  A future is waited for once: at every moment of a run of [scrape]
    no future occurs twice among the futures in the queue, the future
    [scrape] has taken out of it, and the futures that calls have obtained
    from [submit] and not yet put.  So the queue holds no future twice, and
    the future [scrape] is waiting for is not in the queue any more. *)
Theorem future_queued_once (s : State) :
  reachable W C s ->
  NoDup (live s)
  /\ NoDup (futures s)
  /\ (forall f, main_holds (main s) = Some f -> f ∉ futures s).
Proof.
  intros Hr. pose proof (reachable_live s Hr) as Hnd.
  split; [done|]. unfold live, held in Hnd.
  apply NoDup_app in Hnd as (Hq & Hdis & _). split; [done|].
  intros f Hf Hin. apply (Hdis f Hin). rewrite Hf.
  apply elem_of_app. left. by apply list_elem_of_singleton.
Qed.

End Properties.

(** C2.  The URL of a child is the href itself when the href does not begin
    with a slash; when it does, the code joins scheme, "://", host, "/" and
    the href, so that "/about" found on https://a.test/x/y gives
    https://a.test//about, with two slashes after the host. *)
Theorem next_url_relative (url href : string) :
  (Url.startswith "/" href = false -> Url.next_url url href = href)
  /\ (Url.startswith "/" href = true ->
      Url.next_url url href
      = Url.scheme (Url.urlparse url) +:+ "://"
        +:+ Url.netloc (Url.urlparse url) +:+ "/" +:+ href)
  /\ Url.next_url "https://a.test/x/y" "/about" = "https://a.test//about"
  /\ Url.next_url "https://a.test/x/y" "/about" <> "https://a.test/about".
Proof.
  unfold Url.next_url. repeat split.
  - by intros ->.
  - by intros ->.
  - discriminate.
Qed.

(** C1, as stated, fails: with a maximum depth of 1 the seed's child is put
    in the queue at depth 1. *)
Lemma child_queued_at_max_depth :
  ~ (forall s f t,
       reachable web_a cfg_a s -> f ∈ futures s -> pool s !! f = Some t ->
       t_depth t < max_recursion_depth cfg_a).
Proof.
  intros H.
  destruct (run web_a cfg_a sched_child_queued (init cfg_a)) as [s|] eqn:E;
    [|by vm_compute in E].
  assert (Hr : reachable web_a cfg_a s) by (by exists sched_child_queued).
  vm_compute in E. injection E as <-.
  pose proof (fun t Hin Hl => H _ 1%nat t Hr Hin Hl) as Hd. simpl in Hd.
  specialize (Hd _ ltac:(do 2 constructor) eq_refl). simpl in Hd. lia.
Qed.

(** ** The claims on concrete crawls *)

Lemma reachable_child_queued : reachable web_a cfg_a state_child_queued.
Proof. exists sched_child_queued. vm_compute. reflexivity. Defined.

Lemma reachable_child_checked : reachable web_a cfg_a state_child_checked.
Proof. exists sched_child_checked. vm_compute. reflexivity. Defined.

Lemma reachable_cancelled : reachable web_a cfg_a state_cancelled.
Proof. exists sched_cancelled. vm_compute. reflexivity. Defined.

Lemma scheduled_depth_bounded_witness :
  reachable web_a cfg_a state_child_queued
  /\ (forall f, f ∈ futures state_child_queued ->
        is_Some (pool state_child_queued !! f))
  /\ forall g t, pool state_child_queued !! g = Some t ->
       0 <= t_depth t
       /\ (t_depth t = 0 \/ t_depth t <= max_recursion_depth cfg_a)
       /\ (past_checks t = true -> t_depth t < max_recursion_depth cfg_a).
Proof.
  split; [exact reachable_child_queued|].
  exact (scheduled_depth_bounded web_a cfg_a state_child_queued
           reachable_child_queued).
Defined.

Lemma child_depth_succ_witness :
  reachable web_a cfg_a state_child_queued
  /\ exists tp t,
       pool state_child_queued !! 0%nat = Some tp
       /\ pool state_child_queued !! 1%nat = Some t
       /\ t_parent t = Some 0%nat /\ t_depth t = t_depth tp + 1.
Proof.
  split; [exact reachable_child_queued|].
  destruct (child_depth_succ web_a cfg_a state_child_queued
              reachable_child_queued) as [Hpar _].
  specialize (Hpar 1%nat _ eq_refl). simpl in Hpar.
  destruct Hpar as (_ & tp & Htp & Hd).
  exists tp. eexists. split; [exact Htp|]. split; [reflexivity|].
  split; [reflexivity|exact Hd].
Defined.


Lemma skip_without_fetch_witness :
  pool state_child_checked !! 1%nat
  = Some {| t_url := "https://a.test//b"; t_depth := 1;
            t_parent := Some 0%nat; t_state := Running PcVisited |}
  /\ exists s', step web_a cfg_a (AWorker 1) state_child_checked = Some s'
       /\ fetched s' = fetched state_child_checked
       /\ data s' = data state_child_checked
       /\ length (pool s') = length (pool state_child_checked)
       /\ stdout s' = stdout state_child_checked ++ [msg_skip].
Proof.
  split; [reflexivity|].
  destruct (skip_without_fetch web_a cfg_a state_child_checked 1%nat _ eq_refl)
    as [_ Hskip].
  destruct (Hskip eq_refl) as (s' & Hs & Hf & Hd & _ & _ & Hl & _ & _ & Ho).
  { left. simpl. lia. }
  exists s'. repeat split; assumption.
Defined.

Lemma cancellation_is_cooperative_witness :
  pool state_cancelled !! 0%nat
  = Some {| t_url := "https://a.test/"; t_depth := 0; t_parent := None;
            t_state := Running PcRunning |}
  /\ RUNNING state_cancelled = false
  /\ exists s', step web_a cfg_a (AWorker 0) state_cancelled = Some s'
       /\ fetched s' = fetched state_cancelled
       /\ data s' = data state_cancelled
       /\ length (pool s') = length (pool state_cancelled)
       /\ RUNNING s' = false.
Proof.
  split; [reflexivity|]. split; [reflexivity|].
  destruct (cancellation_is_cooperative web_a cfg_a state_cancelled 0%nat _
              eq_refl) as (Hstay & _ & Hret & _).
  destruct (Hret eq_refl eq_refl) as (s' & Hs & Hf & Hd & _ & Hl & _).
  exists s'. repeat split; try assumption.
  exact (Hstay _ _ Hs eq_refl).
Defined.





(** C10, as stated, fails: with no start URL and an output file that cannot
    be opened, an error leaves [scrape]. *)
Lemma empty_start_urls_may_raise :
  ~ (forall s e,
       reachable web_readonly cfg_empty s -> main s <> MRaised e).
Proof.
  intros H.
  apply (H (set_main (MRaised "FileNotFoundError") (init cfg_empty))
           "FileNotFoundError"); [|reflexivity].
  exists [AMain; AMain; AMain]. vm_compute. reflexivity.
Qed.

Lemma empty_start_urls_witness :
  start_urls cfg_empty = []
  /\ (forall s, reachable web_down cfg_empty s ->
        fetched s = [] /\ pool s = [] /\ data s = [])
  /\ (forall s, reachable web_down cfg_empty s -> main s = MReturned ->
        emitted cfg_empty s = Some "{}").
Proof.
  split; [reflexivity|].
  destruct (empty_start_urls web_down cfg_empty eq_refl)
    as (Hno & _ & Hret & _).
  split; [exact Hno|exact Hret].
Defined.

(** ** More of the code, on concrete crawls *)

Lemma reachable_started : reachable web_a cfg_a state_started.
Proof. exists sched_started. vm_compute. reflexivity. Defined.


(** ** The store on its own *)

Section DictProps.
Context {V : Type}.
Implicit Types (d : PyDict.dict V) (k : string) (v : V).

Lemma contains_setitem d k v k' :
  PyDict.contains k' (PyDict.setitem k v d)
  = (String.eqb k' k || PyDict.contains k' d).
Proof.
  induction d as [|[k0 v0] d IH]; simpl.
  - by destruct (String.eqb k' k).
  - destruct (String.eqb_spec k k0) as [->|Hne]; simpl.
    + by destruct (String.eqb k' k0).
    + rewrite IH. destruct (String.eqb_spec k' k0) as [->|]; simpl.
      * by rewrite orb_true_r.
      * done.
Qed.

(** X12.  After [self.data[k] = v] the key [k] is in the store and reads
    as [v]; every other key is in the store or not, and reads, as
    before. *)
Theorem setitem_lookup d k v :
  PyDict.contains k (PyDict.setitem k v d) = true
  /\ PyDict.get k (PyDict.setitem k v d) = Some v
  /\ forall k', k' <> k ->
       PyDict.get k' (PyDict.setitem k v d) = PyDict.get k' d
       /\ PyDict.contains k' (PyDict.setitem k v d) = PyDict.contains k' d.
Proof.
  split; [|split].
  - by rewrite contains_setitem, String.eqb_refl.
  - by rewrite get_setitem, String.eqb_refl.
  - intros k' Hne. rewrite get_setitem, contains_setitem.
    by destruct (String.eqb_spec k' k).
Qed.

(** X13.  Assigning to a key that is in the store leaves the keys and
    their order as they are; assigning to a new key adds it after all the
    others.  The keys of the store are therefore in the order in which the
    pages were first stored, which is the order [json.dumps] writes. *)
Theorem setitem_keys d k v :
  PyDict.keys (PyDict.setitem k v d)
  = if PyDict.contains k d then PyDict.keys d else PyDict.keys d ++ [k].
Proof.
  induction d as [|[k0 v0] d IH]; simpl; [done|].
  destruct (String.eqb_spec k k0) as [->|Hne]; simpl; [done|].
  rewrite IH. by destruct (PyDict.contains k d).
Qed.

End DictProps.

(** ** The further properties on concrete crawls *)

Lemma reachable_done : reachable web_a cfg_a state_done.
Proof. exists sched_done. vm_compute. reflexivity. Defined.

Lemma reachable_flat : reachable web_a cfg_flat state_flat.
Proof. exists sched_flat. vm_compute. reflexivity. Defined.

Lemma reachable_one : reachable web_a cfg_one state_one.
Proof. exists sched_child_queued. vm_compute. reflexivity. Defined.

Lemma future_resolves_once_witness :
  exists s',
    run web_a cfg_a [AWorker 1] state_child_checked = Some s'
    /\ pool s' !! 0%nat = pool state_child_checked !! 0%nat
    /\ step web_a cfg_a (AWorker 0) s' = None.
Proof.
  eexists. split; [vm_compute; reflexivity|].
  destruct (future_resolves_once web_a cfg_a [AWorker 1] state_child_checked
              _ 0%nat _ "https://a.test/-0" eq_refl eq_refl eq_refl)
    as [Hkeep Hstuck].
  split; [exact Hkeep | exact Hstuck].
Defined.


Lemma no_depth_no_request_witness :
  max_recursion_depth cfg_flat <= 0
  /\ reachable web_a cfg_flat state_flat
  /\ fetched state_flat = [] /\ data state_flat = [].
Proof.
  assert (Hmax : max_recursion_depth cfg_flat <= 0) by (simpl; lia).
  split; [exact Hmax|]. split; [exact reachable_flat|].
  destruct (no_depth_no_request web_a cfg_flat state_flat Hmax
              reachable_flat) as (Hf & Hd & _).
  split; [exact Hf | exact Hd].
Defined.

Lemma state_cancelled_not_checking (f : nat) (t : Task) :
  pool state_cancelled !! f = Some t -> checking t = false.
Proof.
  destruct f as [|[|f]]; simpl; intros H; try discriminate.
  injection H as <-. reflexivity.
Defined.

Lemma cancel_stops_requests_witness :
  RUNNING state_cancelled = false
  /\ exists s',
       run web_a cfg_a [AWorker 0; AMain; AMain] state_cancelled = Some s'
       /\ fetched s' = fetched state_cancelled.
Proof.
  split; [reflexivity|]. eexists. split; [vm_compute; reflexivity|].
  exact (proj1 (cancel_stops_requests web_a cfg_a [AWorker 0; AMain; AMain]
                  state_cancelled _ eq_refl state_cancelled_not_checking
                  eq_refl)).
Defined.

Lemma seeds_submitted_in_order_witness :
  reachable web_a cfg_a state_child_queued
  /\ root_urls (pool state_child_queued)
     ++ seeds_left (main state_child_queued) = start_urls cfg_a.
Proof.
  split; [exact reachable_child_queued|].
  exact (seeds_submitted_in_order web_a cfg_a state_child_queued
           reachable_child_queued).
Defined.

Lemma results_complete_witness :
  reachable web_a cfg_a state_done /\ drained (main state_done) = true
  /\ PyDict.get "https://a.test/" (data state_done)
     = Some (page_of web_a "<a href=/b>").
Proof.
  split; [exact reachable_done|]. split; [reflexivity|].
  destruct (results_complete web_a cfg_a state_done reachable_done)
    as [_ Hall].
  apply (Hall eq_refl); [|reflexivity].
  vm_compute. constructor.
Defined.

Lemma drain_prints_every_marker_witness :
  reachable web_a cfg_a state_done /\ drained (main state_done) = true
  /\ "https://a.test//b-1" ∈ stdout state_done.
Proof.
  split; [exact reachable_done|]. split; [reflexivity|].
  exact (drain_prints_every_marker web_a cfg_a state_done 1%nat _
           reachable_done eq_refl eq_refl).
Defined.


Lemma single_worker_requests_once_witness :
  max_workers cfg_one <= 1 /\ reachable web_a cfg_one state_one
  /\ forall i j u,
       fetched state_one !! i = Some u -> fetched state_one !! j = Some u ->
       answers web_a u = true -> i = j.
Proof.
  assert (Hone : max_workers cfg_one <= 1) by (simpl; lia).
  split; [exact Hone|]. split; [exact reachable_one|].
  exact (single_worker_requests_once web_a cfg_one state_one Hone
           reachable_one).
Defined.


(** ** The crawl of [main] *)





Lemma one_request_per_future_witness :
  reachable web_a cfg_a state_child_queued
  /\ (length (fetched state_child_queued)
      + sum_list_with may_request (pool state_child_queued)
      <= length (pool state_child_queued))%nat.
Proof.
  split; [exact reachable_child_queued|].
  exact (one_request_per_future web_a cfg_a state_child_queued
           reachable_child_queued).
Defined.

Lemma future_queued_once_witness :
  reachable web_a cfg_a state_child_queued
  /\ NoDup (futures state_child_queued).
Proof.
  split; [exact reachable_child_queued|].
  exact (proj1 (proj2 (future_queued_once web_a cfg_a state_child_queued
                         reachable_child_queued))).
Defined.
